(** * Word-search generator: a shallow embedding of [wordsearch.py]

    The Python program places words into a square grid by backtracking and
    fills the remaining cells with random letters.  This file embeds the
    program function by function and proves the properties its
    specification states.

    Conventions of the embedding.
    - A Python [str] is a Rocq [string], read as its sequence of characters
      (one [ascii] per character).  A grid cell is a [str]: the placeholder
      [EMPTY] or a one-character string.
    - A Python [int] is a [Z].  List subscripts follow Python: a negative
      subscript counts from the end, a subscript out of range raises
      [IndexError], which the embedding renders as [None].
    - A grid is a list of rows, each row an object of its own (as
      [make_empty_grid] builds it); a function that mutates the grid takes
      the grid and returns the mutated grid.
    - [random.Random] and the methods [str.strip] and [str.upper] belong to
      the Python runtime, not to the program; they are taken as interfaces
      ([RandomSource], [StrMethods]). *)

From Stdlib Require Import ZArith Lia Ascii String Sorted.
From stdpp Require Import base option list strings.

Local Open Scope Z_scope.

(** ** Python lists: subscripts *)

Module PyList.

(** The position a subscript [i] denotes in a list of length [len]. *)
Definition index (len : nat) (i : Z) : option nat :=
  if (0 <=? i) && (i <? Z.of_nat len) then Some (Z.to_nat i)
  else if (- Z.of_nat len <=? i) && (i <? 0) then Some (Z.to_nat (i + Z.of_nat len))
  else None.

(** [l[i]] *)
Definition getitem {A} (l : list A) (i : Z) : option A :=
  n ← index (length l) i; l !! n.

(** [l[i] = v] *)
Definition setitem {A} (l : list A) (i : Z) (v : A) : option (list A) :=
  n ← index (length l) i; Some (<[n:=v]> l).

End PyList.

(** ** Data model *)

(** [EMPTY = "Â·"]: the two characters U+00C2 and U+00B7. *)
Definition EMPTY : string :=
  String (ascii_of_nat 194) (String (ascii_of_nat 183) EmptyString).

(** [List[List[str]]] *)
Abbreviation grid := (list (list string)).
Definition Direction : Type := Z * Z.
Definition Placement : Type := Z * Z * Direction.

Definition DIRECTIONS_8 : list Direction :=
  [ (0, 1); (0, -1); (1, 0); (-1, 0); (1, 1); (1, -1); (-1, 1); (-1, -1) ].

(** The one-character string holding [ch]. *)
Definition str1 (ch : ascii) : string := String ch EmptyString.

(** [len(grid)] *)
Definition len (g : grid) : Z := Z.of_nat (length g).

(** [grid[r][c]] *)
Definition grid_get (g : grid) (r c : Z) : option string :=
  row ← PyList.getitem g r; PyList.getitem row c.

(** [grid[r][c] = v]: the row object is updated in place. *)
Definition grid_set (g : grid) (r c : Z) (v : string) : option grid :=
  row ← PyList.getitem g r;
  row' ← PyList.setitem row c v;
  PyList.setitem g r row'.

(** ** The program *)

Definition make_empty_grid (size : Z) : grid :=
  replicate (Z.to_nat size) (replicate (Z.to_nat size) EMPTY).

Definition in_bounds (size r c : Z) : bool :=
  (0 <=? r) && (r <? size) && ((0 <=? c) && (c <? size)).

(** The loop of [can_place_word] over [enumerate(word)], from index [i]. *)
Fixpoint can_place_loop (g : grid) (word : string) (i r c dr dc : Z)
  : option bool :=
  match word with
  | EmptyString => Some true
  | String ch rest =>
      let rr := r + i * dr in
      let cc := c + i * dc in
      if negb (in_bounds (len g) rr cc) then Some false
      else
        cell ← grid_get g rr cc;
        if negb (String.eqb cell EMPTY) && negb (String.eqb cell (str1 ch))
        then Some false
        else can_place_loop g rest (i + 1) r c dr dc
  end.

Definition can_place_word (g : grid) (word : string) (r c dr dc : Z)
  : option bool :=
  can_place_loop g word 0 r c dr dc.

(** The loop of [place_word]; the coordinates are listed in the order in
    which [changed.append] receives them. *)
Fixpoint place_loop (g : grid) (word : string) (i r c dr dc : Z)
  : option (grid * list (Z * Z)) :=
  match word with
  | EmptyString => Some (g, [])
  | String ch rest =>
      let rr := r + i * dr in
      let cc := c + i * dc in
      cell ← grid_get g rr cc;
      if String.eqb cell EMPTY then
        g' ← grid_set g rr cc (str1 ch);
        '(g'', changed) ← place_loop g' rest (i + 1) r c dr dc;
        Some (g'', (rr, cc) :: changed)
      else place_loop g rest (i + 1) r c dr dc
  end.

Definition place_word (g : grid) (word : string) (r c dr dc : Z)
  : option (grid * list (Z * Z)) :=
  place_loop g word 0 r c dr dc.

Fixpoint undo_changes (g : grid) (changed : list (Z * Z)) : option grid :=
  match changed with
  | [] => Some g
  | (r, c) :: rest => g' ← grid_set g r c EMPTY; undo_changes g' rest
  end.

(** [range(n)] *)
Definition range (n : Z) : list Z := Z.of_nat <$> seq 0 (Z.to_nat n).

(** The innermost loop of [all_possible_placements], over the directions. *)
Fixpoint placements_at (g : grid) (word : string) (r c : Z)
    (directions : list Direction) : option (list Placement) :=
  match directions with
  | [] => Some []
  | (dr, dc) :: rest =>
      if (dr =? 0) && (dc =? 0) then placements_at g word r c rest
      else
        ok ← can_place_word g word r c dr dc;
        ps ← placements_at g word r c rest;
        Some (if ok : bool then (r, c, (dr, dc)) :: ps else ps)
  end.

(** A [for] loop whose body appends to a list and may raise. *)
Fixpoint for_append {A B} (body : A → option (list B)) (xs : list A)
  : option (list B) :=
  match xs with
  | [] => Some []
  | x :: rest => ys ← body x; zs ← for_append body rest; Some (ys ++ zs)
  end.

Definition all_possible_placements (g : grid) (word : string)
    (directions : list Direction) : option (list Placement) :=
  let size := len g in
  for_append (λ r,
    for_append (λ c, placements_at g word r c directions) (range size))
    (range size).

(** ** The Python runtime, as interfaces *)

(** [random.Random]: a generator state, seeding by an integer, and the two
    methods the program calls.  [shuffle] permutes its list; [choice]
    returns an element of a non-empty sequence and raises on an empty one. *)
Class RandomSource := {
  rng_state : Type;
  seeded : Z → rng_state;
  shuffle : ∀ {A}, list A → rng_state → list A * rng_state;
  choice : ∀ {A}, list A → rng_state → option (A * rng_state);
  shuffle_perm : ∀ A (l : list A) s, (shuffle l s).1 ≡ₚ l;
  choice_elem : ∀ A (l : list A) s x s', choice l s = Some (x, s') → x ∈ l;
  choice_nonempty : ∀ A (l : list A) s, l ≠ [] → is_Some (choice l s);
}.

(** [str.strip()] and [str.upper()]. *)
Class StrMethods := {
  strip : string → string;
  upper : string → string;
}.

(** [string.ascii_uppercase] *)
Definition ascii_uppercase : string := "ABCDEFGHIJKLMNOPQRSTUVWXYZ"%string.

(** [s.replace(" ", "")] *)
Fixpoint remove_spaces (s : string) : string :=
  match s with
  | EmptyString => EmptyString
  | String ch rest =>
      if Ascii.eqb ch " "%char then remove_spaces rest
      else String ch (remove_spaces rest)
  end.

(** [list.sort(key=len, reverse=True)]: a stable sort, longest first. *)
Fixpoint insert_by_len (w : string) (l : list string) : list string :=
  match l with
  | [] => [w]
  | y :: rest =>
      if (String.length y <=? String.length w)%nat then w :: y :: rest
      else y :: insert_by_len w rest
  end.

Definition sort_by_len_desc (l : list string) : list string :=
  foldr insert_by_len [] l.

Inductive exception := ValueError | IndexError.

(** What a call of [generate_wordsearch] yields: a grid or an exception. *)
Inductive outcome :=
  | Returned (g : grid)
  | Raised (e : exception).

Section Program.
Context `{RandomSource} `{StrMethods}.

(** The [for] loop of [backtrack_place_words] over the shuffled
    placements; [recurse] is the call for the next word. *)
Fixpoint try_placements
    (recurse : grid → rng_state → option (bool * grid * rng_state))
    (word : string) (placements : list Placement)
    (g : grid) (rng : rng_state) : option (bool * grid * rng_state) :=
  match placements with
  | [] => Some (false, g, rng)
  | (r, c, (dr, dc)) :: rest =>
      '(g1, changed) ← place_word g word r c dr dc;
      '(ok, g2, rng2) ← recurse g1 rng;
      if ok : bool then Some (true, g2, rng2)
      else
        g3 ← undo_changes g2 changed;
        try_placements recurse word rest g3 rng2
  end.

(** [backtrack_place_words] on the words still to place, [words[idx:]]:
    [words[idx]] is the head, the call at [idx + 1] sees the tail. *)
Fixpoint backtrack_from (directions : list Direction) (todo : list string)
    (g : grid) (rng : rng_state) : option (bool * grid * rng_state) :=
  match todo with
  | [] => Some (true, g, rng)
  | word :: todo' =>
      placements ← all_possible_placements g word directions;
      let '(placements, rng1) := shuffle placements rng in
      try_placements (backtrack_from directions todo') word placements g rng1
  end.

(** [None] is the [IndexError] of [words[idx]] for [idx > len(words)]. *)
Definition backtrack_place_words (g : grid) (words : list string)
    (idx : nat) (directions : list Direction) (rng : rng_state)
  : option (bool * grid * rng_state) :=
  if (idx <=? length words)%nat
  then backtrack_from directions (drop idx words) g rng
  else None.

(** The inner loop of [fill_empty_with_random_letters], over the columns. *)
Fixpoint fill_row (g : grid) (rng : rng_state) (r : Z) (cols : list Z)
  : option (grid * rng_state) :=
  match cols with
  | [] => Some (g, rng)
  | c :: rest =>
      cell ← grid_get g r c;
      if String.eqb cell EMPTY then
        '(ch, rng') ← choice (list_ascii_of_string ascii_uppercase) rng;
        g' ← grid_set g r c (str1 ch);
        fill_row g' rng' r rest
      else fill_row g rng r rest
  end.

(** The outer loop, over the rows. *)
Fixpoint fill_rows (g : grid) (rng : rng_state) (rows : list Z)
  : option (grid * rng_state) :=
  match rows with
  | [] => Some (g, rng)
  | r :: rest =>
      '(g', rng') ← fill_row g rng r (range (len g));
      fill_rows g' rng' rest
  end.

Definition fill_empty_with_random_letters (g : grid) (rng : rng_state)
  : option (grid * rng_state) :=
  fill_rows g rng (range (len g)).

(** [[w.strip().upper().replace(" ", "") for w in words if w.strip()]],
    then sorted. *)
Definition clean (words : list string) : list string :=
  sort_by_len_desc
    ((λ w, remove_spaces (upper (strip w)))
       <$> filter (λ w, strip w ≠ EmptyString) words).

Definition directions_for (allow_diagonals : bool) : list Direction :=
  if allow_diagonals then DIRECTIONS_8
  else [ (0, 1); (0, -1); (1, 0); (-1, 0) ].

(** [random.Random(seed)]: with [seed = None] the generator is seeded from
    the operating system, an input of the run ([entropy]). *)
Definition Random (entropy : rng_state) (seed : option Z) : rng_state :=
  match seed with
  | Some n => seeded n
  | None => entropy
  end.

Definition generate_wordsearch (entropy : rng_state) (words : list string)
    (size : Z) (allow_diagonals : bool) (seed : option Z) : outcome :=
  let rng := Random entropy seed in
  let cleaned := clean words in
  let g := make_empty_grid size in
  let directions := directions_for allow_diagonals in
  match backtrack_place_words g cleaned 0 directions rng with
  | None => Raised IndexError
  | Some (false, _, _) => Raised ValueError
  | Some (true, g, rng) =>
      match fill_empty_with_random_letters g rng with
      | None => Raised IndexError
      | Some (g, _) => Returned g
      end
  end.

End Program.

(** [print_grid]: the lines it writes, one call of [print(" ".join(row))]
    per row. *)
Definition print_grid (g : grid) : list string :=
  (λ row, String.concat " " row) <$> g.

(** ** A small runtime to run the program on *)

(** A generator whose state is a counter: [shuffle] rotates the list by
    the counter, [choice] picks the element at the counter, and both
    advance it.  On text in the ASCII range [strip] and [upper] below are
    Python's. *)
Module Sample.

Definition shuffle {A} (l : list A) (s : nat) : list A * nat :=
  let k := (s `mod` length l)%nat in (drop k l ++ take k l, S s).

Definition choice {A} (l : list A) (s : nat) : option (A * nat) :=
  x ← l !! (s `mod` length l)%nat; Some (x, S s).

Definition is_space (ch : ascii) : bool :=
  let n := nat_of_ascii ch in
  ((9 <=? n) && (n <=? 13) || (28 <=? n) && (n <=? 32))%nat.

Fixpoint lstrip (s : string) : string :=
  match s with
  | EmptyString => EmptyString
  | String ch rest => if is_space ch then lstrip rest else s
  end.

Fixpoint rstrip (s : string) : string :=
  match s with
  | EmptyString => EmptyString
  | String ch rest =>
      match rstrip rest with
      | EmptyString => if is_space ch then EmptyString else str1 ch
      | rest' => String ch rest'
      end
  end.

Definition strip (s : string) : string := rstrip (lstrip s).

Definition upper_char (ch : ascii) : ascii :=
  let n := nat_of_ascii ch in
  if ((97 <=? n) && (n <=? 122))%nat then ascii_of_nat (n - 32) else ch.

Fixpoint upper (s : string) : string :=
  match s with
  | EmptyString => EmptyString
  | String ch rest => String (upper_char ch) (upper rest)
  end.

(** A second generator, which keeps its counter as an integer. *)
Definition shuffleZ {A} (l : list A) (z : Z) : list A * Z :=
  ((shuffle l (Z.to_nat z)).1, z + 1).

Definition choiceZ {A} (l : list A) (z : Z) : option (A * Z) :=
  '(x, _) ← choice l (Z.to_nat z); Some (x, z + 1).

End Sample.

(** ** Vocabulary of the properties *)

(** Every row of the grid is as long as the grid has rows: the grid is N×N. *)
Definition square (g : grid) : Prop :=
  Forall (λ row : list string, length row = length g) g.

(** [P i ch] holds for every index [i] of [word] and its letter [ch]. *)
Definition along (word : string) (P : Z → ascii → Prop) : Prop :=
  ∀ (i : nat) (ch : ascii), String.get i word = Some ch → P (Z.of_nat i) ch.

(** The cell that receives letter [i] of a word started at [(r, c)] in
    direction [(dr, dc)] is in bounds and is empty or already holds [ch]. *)
Definition cell_accepts (g : grid) (r c dr dc i : Z) (ch : ascii) : Prop :=
  in_bounds (len g) (r + i * dr) (c + i * dc) = true ∧
  ∃ cell, grid_get g (r + i * dr) (c + i * dc) = Some cell ∧
          (cell = EMPTY ∨ cell = str1 ch).

(** The cell that receives letter [i] is in bounds and holds [ch]. *)
Definition cell_spells (g : grid) (r c dr dc i : Z) (ch : ascii) : Prop :=
  in_bounds (len g) (r + i * dr) (c + i * dc) = true ∧
  grid_get g (r + i * dr) (c + i * dc) = Some (str1 ch).

(** [word] can be read in [g] from [(r, c)] in direction [(dr, dc)]. *)
Definition written (g : grid) (word : string) (r c dr dc : Z) : Prop :=
  along word (cell_spells g r c dr dc).

(** [word] can be read in [g] from a cell of the grid along one of the
    non-zero [directions]. *)
Definition appears (g : grid) (directions : list Direction) (word : string)
  : Prop :=
  ∃ r c dr dc,
    in_bounds (len g) r c = true ∧ (dr, dc) ∈ directions ∧
    (dr, dc) ≠ (0, 0) ∧ written g word r c dr dc.

(** [h] agrees with [g] on every cell of [g] that is not empty. *)
Definition extends (g h : grid) : Prop :=
  square h ∧ len h = len g ∧
  ∀ r c cell, in_bounds (len g) r c = true →
    grid_get g r c = Some cell → cell ≠ EMPTY → grid_get h r c = Some cell.

(** An arrangement of [words] in a [size] × [size] grid: a grid in which
    every word can be read along one of the [directions]. *)
Definition arrangement (size : Z) (directions : list Direction)
    (words : list string) (h : grid) : Prop :=
  square h ∧ len h = Z.max 0 size ∧ Forall (appears h directions) words.

(** The cell is one of the 26 letters [A]..[Z]. *)
Definition uppercase_letter (cell : string) : Prop :=
  ∃ ch, cell = str1 ch ∧ (65 ≤ nat_of_ascii ch ≤ 90)%nat.

(** Every character of the word is a letter [A]..[Z]. *)
Definition uppercase_word (word : string) : Prop :=
  along word (λ _ ch, (65 ≤ nat_of_ascii ch ≤ 90)%nat).

(** The position a subscript in [-n, n) denotes: a negative subscript
    counts from the end. *)
Definition from_end (n i : Z) : Z := if i <? 0 then i + n else i.

(** [a] may stand before [b] in a list sorted longest first. *)
Definition longer_first (a b : string) : Prop :=
  (String.length b ≤ String.length a)%nat.

(** The grid with one more column and one more row, both empty. *)
Definition widen (h : grid) : grid :=
  ((λ row, row ++ [EMPTY]) <$> h) ++ [replicate (S (length h)) EMPTY].

(** Two generator objects give the same answers: from states related by
    [rel], [shuffle] returns the same list and [choice] the same element (or
    both raise), and the states they are left in are related again. *)
Definition same_answers (R1 R2 : RandomSource)
    (rel : @rng_state R1 → @rng_state R2 → Prop) : Prop :=
  (∀ A (l : list A) s1 s2, rel s1 s2 →
     (@shuffle R1 A l s1).1 = (@shuffle R2 A l s2).1 ∧
     rel (@shuffle R1 A l s1).2 (@shuffle R2 A l s2).2) ∧
  (∀ A (l : list A) s1 s2, rel s1 s2 →
     option_Forall2 (λ a b, a.1 = b.1 ∧ rel a.2 b.2)
       (@choice R1 A l s1) (@choice R2 A l s2)).

(** ** Grids *)

Section GridFacts.
Implicit Types (g h : grid) (r c : Z) (v : string).

Lemma in_bounds_spec size r c :
  in_bounds size r c = true ↔ 0 ≤ r < size ∧ 0 ≤ c < size.
Proof. unfold in_bounds. rewrite !andb_true_iff. lia. Qed.

Lemma index_in_range (n : nat) (i : Z) :
  0 ≤ i < Z.of_nat n → PyList.index n i = Some (Z.to_nat i).
Proof.
  intros Hi. unfold PyList.index.
  destruct (0 <=? i) eqn:E1; [|lia]. destruct (i <? Z.of_nat n) eqn:E2; [done|lia].
Qed.

Lemma getitem_in_range {A} (l : list A) (i : Z) :
  0 ≤ i < Z.of_nat (length l) → PyList.getitem l i = l !! Z.to_nat i.
Proof. intros Hi. unfold PyList.getitem. by rewrite index_in_range. Qed.

Lemma setitem_in_range {A} (l : list A) (i : Z) (x : A) :
  0 ≤ i < Z.of_nat (length l) →
  PyList.setitem l i x = Some (<[Z.to_nat i := x]> l).
Proof. intros Hi. unfold PyList.setitem. by rewrite index_in_range. Qed.

Lemma square_row g (i : nat) row :
  square g → g !! i = Some row → length row = length g.
Proof. intros Hsq Hrow. by eapply (Forall_lookup_1 _ _ _ _ Hsq Hrow). Qed.

(** A cell in bounds of a square grid can be read. *)
Lemma grid_get_is_Some g r c :
  square g → in_bounds (len g) r c = true → is_Some (grid_get g r c).
Proof.
  intros Hsq [Hr Hc]%in_bounds_spec. unfold len in *.
  unfold grid_get. rewrite getitem_in_range by done.
  destruct (lookup_lt_is_Some_2 g (Z.to_nat r)) as [row Hrow]; [lia|].
  rewrite Hrow. simpl. pose proof (square_row _ _ _ Hsq Hrow).
  rewrite getitem_in_range by lia. apply lookup_lt_is_Some_2. lia.
Qed.

(** Writing a cell in bounds of a square grid: the write succeeds, the
    grid keeps its shape, the cell holds the value and the others are as
    before. *)
Lemma grid_set_spec g r c v :
  square g → in_bounds (len g) r c = true →
  ∃ g', grid_set g r c v = Some g' ∧ square g' ∧ len g' = len g ∧
    grid_get g' r c = Some v ∧
    ∀ r' c', in_bounds (len g) r' c' = true → (r', c') ≠ (r, c) →
      grid_get g' r' c' = grid_get g r' c'.
Proof.
  intros Hsq [Hr Hc]%in_bounds_spec. unfold len in *.
  destruct (lookup_lt_is_Some_2 g (Z.to_nat r)) as [row Hrow]; [lia|].
  pose proof (square_row _ _ _ Hsq Hrow) as Hlen.
  exists (<[Z.to_nat r := <[Z.to_nat c := v]> row]> g).
  assert (Hlen' : length (<[Z.to_nat r := <[Z.to_nat c := v]> row]> g) = length g)
    by apply length_insert.
  split; [|split; [|split; [|split]]].
  - unfold grid_set. rewrite getitem_in_range by done. rewrite Hrow. simpl.
    rewrite setitem_in_range by lia. simpl. by rewrite setitem_in_range.
  - unfold square. rewrite Hlen'. apply Forall_insert; [done|].
    by rewrite length_insert.
  - by rewrite Hlen'.
  - unfold grid_get. rewrite getitem_in_range by lia.
    rewrite list_lookup_insert_eq by lia. simpl.
    rewrite getitem_in_range by (rewrite length_insert; lia).
    apply list_lookup_insert_eq. lia.
  - intros r' c' [Hr' Hc']%in_bounds_spec Hne. unfold grid_get.
    rewrite !getitem_in_range by lia.
    destruct (decide (Z.to_nat r = Z.to_nat r')) as [Heq|Hner].
    + rewrite <- Heq, list_lookup_insert_eq, Hrow by lia. simpl.
      rewrite !getitem_in_range by (rewrite ?length_insert; lia).
      apply list_lookup_insert_ne. intros Heq'.
      apply Hne. f_equal; lia.
    + by rewrite list_lookup_insert_ne.
Qed.

(** Two square grids of one size that agree on every cell are equal. *)
Lemma grid_ext g h :
  square g → square h → len h = len g →
  (∀ r c, in_bounds (len g) r c = true → grid_get h r c = grid_get g r c) →
  h = g.
Proof.
  intros Hg Hh Hlen Hcells. unfold len in *.
  apply list_eq. intros i.
  destruct (decide (i < length g)%nat) as [Hi|Hi].
  - destruct (lookup_lt_is_Some_2 g i) as [row Hrow]; [done|].
    destruct (lookup_lt_is_Some_2 h i) as [row' Hrow']; [lia|].
    rewrite Hrow, Hrow'. f_equal.
    pose proof (square_row _ _ _ Hg Hrow). pose proof (square_row _ _ _ Hh Hrow').
    apply list_eq. intros j.
    destruct (decide (j < length g)%nat) as [Hj|Hj].
    + specialize (Hcells (Z.of_nat i) (Z.of_nat j)).
      unfold grid_get in Hcells.
      rewrite !getitem_in_range, !Nat2Z.id, Hrow, Hrow' in Hcells by lia.
      simpl in Hcells. rewrite !getitem_in_range, !Nat2Z.id in Hcells by lia.
      apply Hcells. apply in_bounds_spec. lia.
    + rewrite !lookup_ge_None_2 by lia. done.
  - rewrite !lookup_ge_None_2 by lia. done.
Qed.

Lemma square_make_empty_grid size : square (make_empty_grid size).
Proof.
  unfold square, make_empty_grid. rewrite length_replicate.
  apply Forall_replicate, length_replicate.
Qed.

Lemma len_make_empty_grid size : len (make_empty_grid size) = Z.max 0 size.
Proof. unfold len, make_empty_grid. rewrite length_replicate. lia. Qed.

Lemma grid_get_make_empty_grid size r c :
  in_bounds (Z.max 0 size) r c = true →
  grid_get (make_empty_grid size) r c = Some EMPTY.
Proof.
  intros [Hr Hc]%in_bounds_spec. unfold grid_get, make_empty_grid.
  rewrite getitem_in_range by (rewrite length_replicate; lia).
  rewrite lookup_replicate_2 by lia. simpl.
  rewrite getitem_in_range by (rewrite length_replicate; lia).
  apply lookup_replicate_2. lia.
Qed.

End GridFacts.

(** ** Words, letter by letter *)

Section Along.
Implicit Types (word : string) (P Q : Z → ascii → Prop).

Lemma along_nil P : along EmptyString P.
Proof. intros i ch Hget. by destruct i. Qed.

Lemma along_cons ch word P :
  along (String ch word) P ↔ P 0 ch ∧ along word (λ i, P (i + 1)).
Proof.
  split.
  - intros Hall. split; [by apply (Hall 0%nat)|].
    intros i ch' Hget. replace (Z.of_nat i + 1) with (Z.of_nat (S i)) by lia.
    by apply Hall.
  - intros [Hhd Htl] [|i] ch' Hget; simpl in Hget.
    + by simplify_eq.
    + replace (Z.of_nat (S i)) with (Z.of_nat i + 1) by lia. by apply Htl.
Qed.

Lemma along_impl word P Q :
  (∀ i ch, 0 ≤ i → P i ch → Q i ch) → along word P → along word Q.
Proof. intros HPQ HP i ch Hget. apply HPQ; [lia|]. by apply HP. Qed.

Lemma get_is_Some word (n : nat) :
  (n < String.length word)%nat → is_Some (String.get n word).
Proof.
  revert n. induction word as [|ch word IH]; intros n Hn; simpl in *; [lia|].
  destruct n; [by eexists|]. apply IH. lia.
Qed.

Lemma str1_not_EMPTY ch : str1 ch ≠ EMPTY.
Proof. unfold str1, EMPTY. intros Heq. by simplify_eq. Qed.

End Along.

(** ** [can_place_word] *)

Lemma can_place_loop_spec g word i r c dr dc :
  square g →
  ∃ b, can_place_loop g word i r c dr dc = Some b ∧
       (b = true ↔ along word (λ k, cell_accepts g r c dr dc (i + k))).
Proof.
  intros Hsq. revert i. induction word as [|ch word IH]; intros i; simpl.
  { exists true. split; [done|]. split; [intros _; apply along_nil|done]. }
  pose proof (along_cons ch word (λ k, cell_accepts g r c dr dc (i + k))) as Hcons.
  simpl in Hcons. unfold cell_accepts at 2 in Hcons. rewrite Z.add_0_r in Hcons.
  destruct (in_bounds (len g) (r + i * dr) (c + i * dc)) eqn:Hin; simpl.
  2: { exists false. split; [done|]. split; [done|].
       intros [[? _] _]%Hcons. congruence. }
  destruct (grid_get_is_Some g _ _ Hsq Hin) as [cell Hcell]. rewrite Hcell. simpl.
  destruct (IH (i + 1)) as (b & Hb & Hiff).
  assert (Hshift : along word (λ k, cell_accepts g r c dr dc (i + 1 + k)) ↔
                   along word (λ k, cell_accepts g r c dr dc (i + (k + 1)))).
  { split; apply along_impl; intros k ch' _;
      by replace (i + (k + 1)) with (i + 1 + k) by lia. }
  destruct (String.eqb_spec cell EMPTY) as [->|Hne]; simpl.
  - exists b. split; [done|]. rewrite Hiff, Hshift, Hcons. naive_solver.
  - destruct (String.eqb_spec cell (str1 ch)) as [->|Hne']; simpl.
    + exists b. split; [done|]. rewrite Hiff, Hshift, Hcons. naive_solver.
    + exists false. split; [done|]. split; [done|].
      intros [(_ & cell' & Hcell' & Hor) _]%Hcons. naive_solver.
Qed.

Lemma can_place_word_spec g word r c dr dc :
  square g →
  ∃ b, can_place_word g word r c dr dc = Some b ∧
       (b = true ↔ along word (cell_accepts g r c dr dc)).
Proof.
  intros Hsq. destruct (can_place_loop_spec g word 0 r c dr dc Hsq) as (b & Hb & Hiff).
  exists b. split; [done|]. rewrite Hiff.
  split; apply along_impl; intros k ch _; by rewrite ?Z.add_0_l.
Qed.

Lemma can_place_word_true g word r c dr dc :
  square g →
  can_place_word g word r c dr dc = Some true ↔
  along word (cell_accepts g r c dr dc).
Proof.
  intros Hsq. destruct (can_place_word_spec g word r c dr dc Hsq) as (b & Hb & Hiff).
  rewrite Hb, <- Hiff. naive_solver.
Qed.

(** ** [undo_changes] and [place_word] *)

(** Every coordinate of the list is a cell of the grid. *)
Definition cells_of (g : grid) (coords : list (Z * Z)) : Prop :=
  Forall (λ rc, in_bounds (len g) rc.1 rc.2 = true) coords.

(** All the cells a word would occupy from index [i] on are in bounds. *)
Definition spans (g : grid) (word : string) (i r c dr dc : Z) : Prop :=
  along word (λ k _, in_bounds (len g) (r + (i + k) * dr) (c + (i + k) * dc) = true).

Lemma undo_changes_spec g changed :
  square g → cells_of g changed →
  ∃ g', undo_changes g changed = Some g' ∧ square g' ∧ len g' = len g ∧
    (∀ r c, (r, c) ∈ changed → grid_get g' r c = Some EMPTY) ∧
    (∀ r c, in_bounds (len g) r c = true → (r, c) ∉ changed →
       grid_get g' r c = grid_get g r c).
Proof.
  revert g. induction changed as [|[r0 c0] changed IH]; intros g Hsq Hcells.
  { exists g. repeat split; try done. intros r c Hin. by apply elem_of_nil in Hin. }
  apply Forall_cons in Hcells as [Hin0 Hcells]. simpl in Hin0.
  destruct (grid_set_spec g r0 c0 EMPTY Hsq Hin0)
    as (g1 & Hset & Hsq1 & Hlen1 & Hget1 & Hframe1).
  destruct (IH g1 Hsq1) as (g' & Hundo & Hsq' & Hlen' & Hreset & Hframe').
  { unfold cells_of. by rewrite Hlen1. }
  exists g'. simpl. rewrite Hset. simpl. split; [done|]. split; [done|].
  split; [congruence|]. split.
  - intros r c [Heq|Hin]%elem_of_cons; [|by apply Hreset].
    injection Heq as -> ->.
    destruct (decide ((r0, c0) ∈ changed)); [by apply Hreset|].
    rewrite Hframe' by (by rewrite ?Hlen1). done.
  - intros r c Hin [Hne Hnotin]%not_elem_of_cons.
    rewrite Hframe' by (by rewrite ?Hlen1). by apply Hframe1.
Qed.

Lemma place_loop_spec g word i r c dr dc :
  square g → spans g word i r c dr dc →
  ∃ g' changed, place_loop g word i r c dr dc = Some (g', changed) ∧
    square g' ∧ len g' = len g ∧
    Forall (λ rc, in_bounds (len g) rc.1 rc.2 = true ∧
                  grid_get g rc.1 rc.2 = Some EMPTY) changed ∧
    (∀ r' c', in_bounds (len g) r' c' = true → (r', c') ∉ changed →
       grid_get g' r' c' = grid_get g r' c').
Proof.
  revert g i. induction word as [|ch word IH]; intros g i Hsq Hspan.
  { exists g, []. repeat split; try done. }
  apply along_cons in Hspan as [Hin Hspan]. rewrite Z.add_0_r in Hin.
  assert (Hspan' : ∀ g1, len g1 = len g → spans g1 word (i + 1) r c dr dc).
  { intros g1 Hlen1. revert Hspan. apply along_impl. intros k _ _.
    rewrite Hlen1. by replace (i + 1 + k) with (i + (k + 1)) by lia. }
  simpl. destruct (grid_get_is_Some g _ _ Hsq Hin) as [cell Hcell].
  rewrite Hcell. simpl.
  destruct (String.eqb_spec cell EMPTY) as [->|Hne].
  - destruct (grid_set_spec g _ _ (str1 ch) Hsq Hin)
      as (g1 & Hset & Hsq1 & Hlen1 & Hget1 & Hframe1).
    rewrite Hset. simpl.
    destruct (IH g1 (i + 1) Hsq1 (Hspan' g1 Hlen1))
      as (g' & changed & Hplace & Hsq' & Hlen' & Hall & Hframe').
    rewrite Hplace. simpl. exists g', ((r + i * dr, c + i * dc) :: changed).
    split; [done|]. split; [done|]. split; [congruence|]. split.
    + apply Forall_cons. split; [done|].
      eapply Forall_impl; [exact Hall|]. intros [r' c']. simpl. intros [Hin' Hempty].
      rewrite Hlen1 in Hin'. split; [done|]. rewrite <- Hempty. symmetry.
      apply Hframe1; [done|]. intros Heq. injection Heq as -> ->.
      apply (str1_not_EMPTY ch). congruence.
    + intros r' c' Hin' [Hne Hnotin]%not_elem_of_cons.
      rewrite Hframe' by (by rewrite ?Hlen1). by apply Hframe1.
  - destruct (IH g (i + 1) Hsq (Hspan' g eq_refl))
      as (g' & changed & Hplace & Hsq' & Hlen' & Hall & Hframe').
    rewrite Hplace. by exists g', changed.
Qed.

(** Placing a word keeps every letter already in the grid. *)
Lemma place_loop_extends g word i r c dr dc g' changed :
  square g → spans g word i r c dr dc →
  place_loop g word i r c dr dc = Some (g', changed) →
  extends g g'.
Proof.
  intros Hsq Hspan Hplace.
  destruct (place_loop_spec g word i r c dr dc Hsq Hspan)
    as (g'' & changed' & Hplace' & Hsq' & Hlen' & Hall & Hframe).
  simplify_eq. split; [done|]. split; [done|].
  intros r' c' cell Hin Hcell Hne. rewrite Hframe; [done..|].
  intros Hmem. rewrite Forall_forall in Hall.
  destruct (Hall _ Hmem) as [_ Hempty]. simpl in Hempty. congruence.
Qed.

(** Undoing the change set of a placement gives back the grid. *)
Lemma place_loop_undo g word i r c dr dc g' changed :
  square g → spans g word i r c dr dc →
  place_loop g word i r c dr dc = Some (g', changed) →
  undo_changes g' changed = Some g.
Proof.
  intros Hsq Hspan Hplace.
  destruct (place_loop_spec g word i r c dr dc Hsq Hspan)
    as (g'' & changed' & Hplace' & Hsq' & Hlen' & Hall & Hframe).
  simplify_eq.
  destruct (undo_changes_spec g' changed Hsq')
    as (g0 & Hundo & Hsq0 & Hlen0 & Hreset & Hframe0).
  { eapply Forall_impl; [exact Hall|]. intros rc [Hin _]. by rewrite Hlen'. }
  rewrite Hundo. f_equal. apply grid_ext; [done|done|congruence|].
  intros r' c' Hin. destruct (decide ((r', c') ∈ changed)) as [Hmem|Hnot].
  - rewrite Hreset by done. rewrite Forall_forall in Hall.
    destruct (Hall _ Hmem) as [_ Hempty]. simpl in Hempty. by rewrite Hempty.
  - rewrite Hframe0 by (by rewrite ?Hlen'). by apply Hframe.
Qed.

Lemma accepts_spans g word i r c dr dc :
  along word (λ k, cell_accepts g r c dr dc (i + k)) → spans g word i r c dr dc.
Proof. apply along_impl. by intros k ch _ [Hin _]. Qed.

(** Two different letters of a word laid along a non-zero direction fall on
    different cells. *)
Lemma step_apart r c dr dc i k :
  (dr, dc) ≠ (0, 0) → 0 ≤ k →
  (r + (i + 1 + k) * dr, c + (i + 1 + k) * dc) ≠ (r + i * dr, c + i * dc).
Proof.
  intros Hdir Hk Heq. injection Heq as Hr Hc. apply Hdir.
  assert (dr = 0) as -> by nia. assert (dc = 0) as -> by nia. done.
Qed.

(** After a placement along a non-zero direction on cells that accept the
    word, the word can be read there. *)
Lemma place_loop_written g word i r c dr dc g' changed :
  square g → (dr, dc) ≠ (0, 0) →
  along word (λ k, cell_accepts g r c dr dc (i + k)) →
  place_loop g word i r c dr dc = Some (g', changed) →
  along word (λ k, cell_spells g' r c dr dc (i + k)).
Proof.
  revert g i changed. induction word as [|ch word IH];
    intros g i changed Hsq Hdir Hacc Hplace.
  { apply along_nil. }
  destruct (place_loop_extends _ _ _ _ _ _ _ _ _ Hsq
              (accepts_spans _ _ _ _ _ _ _ Hacc) Hplace) as (Hsq' & Hlen' & Hkeep).
  apply along_cons in Hacc as [Hhd Hacc]. rewrite Z.add_0_r in Hhd.
  destruct Hhd as (Hin & cell & Hcell & Hor).
  apply along_cons. rewrite Z.add_0_r. unfold cell_spells at 1. rewrite Hlen'.
  simpl in Hplace. rewrite Hcell in Hplace. simpl in Hplace.
  assert (Hshift : ∀ g0, along word (λ k, cell_spells g0 r c dr dc (i + 1 + k)) →
                         along word (λ k, cell_spells g0 r c dr dc (i + (k + 1)))).
  { intros g0. apply along_impl. intros k ch' _.
    by replace (i + (k + 1)) with (i + 1 + k) by lia. }
  destruct (String.eqb_spec cell EMPTY) as [->|Hne].
  - destruct (grid_set_spec g _ _ (str1 ch) Hsq Hin)
      as (g1 & Hset & Hsq1 & Hlen1 & Hget1 & Hframe1).
    rewrite Hset in Hplace. simpl in Hplace.
    destruct (place_loop g1 word (i + 1) r c dr dc) as [[g'' changed']|] eqn:Hpl;
      [|done]. simpl in Hplace. injection Hplace as <- <-.
    assert (Hacc1 : along word (λ k, cell_accepts g1 r c dr dc (i + 1 + k))).
    { revert Hacc. apply along_impl.
      intros k ch' Hk (Hin' & cell' & Hcell' & Hor').
      replace (i + (k + 1)) with (i + 1 + k) in * by lia.
      split; [by rewrite Hlen1|]. exists cell'. split; [|done].
      rewrite Hframe1; [done|done|]. by apply step_apart. }
    destruct (place_loop_extends _ _ _ _ _ _ _ _ _ Hsq1
                (accepts_spans _ _ _ _ _ _ _ Hacc1) Hpl) as (_ & _ & Hkeep1).
    split.
    + split; [done|]. apply Hkeep1; [by rewrite Hlen1|done|apply str1_not_EMPTY].
    + apply Hshift. by apply (IH g1 (i + 1) changed' Hsq1 Hdir).
  - destruct Hor as [->| ->]; [done|]. split.
    + split; [done|]. by apply Hkeep.
    + apply Hshift. apply (IH g (i + 1) changed Hsq Hdir); [|done].
      revert Hacc. apply along_impl. intros k ch' _.
      by replace (i + (k + 1)) with (i + 1 + k) by lia.
Qed.

(** ** [all_possible_placements] *)

Lemma elem_of_range n x : x ∈ range n ↔ 0 ≤ x < n.
Proof.
  unfold range. rewrite list_elem_of_fmap. split.
  - intros (k & -> & Hk). apply elem_of_seq in Hk. lia.
  - intros Hx. exists (Z.to_nat x). split; [lia|]. apply elem_of_seq. lia.
Qed.

Lemma for_append_spec {A B} (body : A → option (list B)) (xs : list A) :
  (∀ x, x ∈ xs → is_Some (body x)) →
  ∃ zs, for_append body xs = Some zs ∧
        ∀ z, z ∈ zs ↔ ∃ x ys, x ∈ xs ∧ body x = Some ys ∧ z ∈ ys.
Proof.
  induction xs as [|x xs IH]; intros Hbody.
  { exists []. split; [done|]. intros z. split.
    - by intros ?%elem_of_nil.
    - by intros (x & ys & ?%elem_of_nil & _). }
  destruct (Hbody x) as [ys Hys]; [by left|].
  destruct IH as (zs & Hzs & Hmem); [intros x' Hx'; apply Hbody; by right|].
  exists (ys ++ zs). simpl. rewrite Hys, Hzs. split; [done|].
  intros z. rewrite elem_of_app, Hmem. split.
  - intros [Hz|(x' & ys' & Hx' & Hys' & Hz)].
    + exists x, ys. split; [by left|done].
    + exists x', ys'. split; [by right|done].
  - intros (x' & ys' & [->|Hx']%elem_of_cons & Hys' & Hz).
    + left. congruence.
    + right. by exists x', ys'.
Qed.

Lemma placements_at_spec g word r c directions :
  square g →
  ∃ ps, placements_at g word r c directions = Some ps ∧
    ∀ p, p ∈ ps ↔
      ∃ dr dc, p = (r, c, (dr, dc)) ∧ (dr, dc) ∈ directions ∧
               (dr, dc) ≠ (0, 0) ∧
               can_place_word g word r c dr dc = Some true.
Proof.
  intros Hsq. induction directions as [|[dr dc] directions (ps & Hps & Hmem)].
  { exists []. split; [done|]. intros p. split.
    - by intros ?%elem_of_nil.
    - by intros (? & ? & _ & ?%elem_of_nil & _). }
  simpl. destruct ((dr =? 0) && (dc =? 0)) eqn:Hzero.
  - apply andb_true_iff in Hzero as [->%Z.eqb_eq ->%Z.eqb_eq].
    exists ps. split; [done|]. intros p. rewrite Hmem. split.
    + intros (dr & dc & -> & Hin & Hne & Hok). exists dr, dc.
      split; [done|]. split; [by right|done].
    + intros (dr & dc & -> & [Heq|Hin]%elem_of_cons & Hne & Hok); [done|].
      by exists dr, dc.
  - assert (Hne0 : (dr, dc) ≠ (0, 0)).
    { intros [= -> ->]. done. }
    destruct (can_place_word_spec g word r c dr dc Hsq) as (ok & Hok & _).
    rewrite Hok, Hps. simpl.
    exists (if ok then (r, c, (dr, dc)) :: ps else ps). split; [done|].
    intros p. split.
    + intros Hp. assert (Hcases : (ok = true ∧ p = (r, c, (dr, dc))) ∨ p ∈ ps).
      { destruct ok; [|by right].
        apply elem_of_cons in Hp as [->|Hp']; [by left|by right]. }
      clear Hp. destruct Hcases as [[-> ->]|Hp].
      * exists dr, dc. split; [done|]. split; [by left|done].
      * apply Hmem in Hp as (dr' & dc' & -> & Hin & Hne & Hok').
        exists dr', dc'. split; [done|]. split; [by right|done].
    + intros (dr' & dc' & -> & [Heq|Hin]%elem_of_cons & Hne & Hok').
      * injection Heq as -> ->. rewrite Hok in Hok'. injection Hok' as ->.
        by left.
      * assert (Hp : (r, c, (dr', dc')) ∈ ps) by (apply Hmem; by exists dr', dc').
        destruct ok; [by right|done].
Qed.

Lemma all_possible_placements_spec g word directions :
  square g →
  ∃ ps, all_possible_placements g word directions = Some ps ∧
    ∀ r c dr dc, (r, c, (dr, dc)) ∈ ps ↔
      in_bounds (len g) r c = true ∧ (dr, dc) ∈ directions ∧
      (dr, dc) ≠ (0, 0) ∧ can_place_word g word r c dr dc = Some true.
Proof.
  intros Hsq. unfold all_possible_placements.
  assert (Hinner : ∀ r, ∃ ps,
    for_append (λ c, placements_at g word r c directions) (range (len g)) = Some ps ∧
    ∀ p, p ∈ ps ↔ ∃ c dr dc, p = (r, c, (dr, dc)) ∧ 0 ≤ c < len g ∧
      (dr, dc) ∈ directions ∧ (dr, dc) ≠ (0, 0) ∧
      can_place_word g word r c dr dc = Some true).
  { intros r.
    destruct (for_append_spec (λ c, placements_at g word r c directions)
                (range (len g))) as (ps & Hps & Hmem).
    { intros c _. destruct (placements_at_spec g word r c directions Hsq)
        as (ps & Hps & _). by exists ps. }
    exists ps. split; [done|]. intros p. rewrite Hmem. split.
    - intros (c & ys & Hc%elem_of_range & Hys & Hp).
      destruct (placements_at_spec g word r c directions Hsq) as (ps' & Hps' & Hmem').
      rewrite Hys in Hps'. injection Hps' as <-.
      apply Hmem' in Hp as (dr & dc & -> & Hrest). by exists c, dr, dc.
    - intros (c & dr & dc & -> & Hc & Hrest).
      destruct (placements_at_spec g word r c directions Hsq) as (ps' & Hps' & Hmem').
      exists c, ps'. split; [by apply elem_of_range|]. split; [done|].
      apply Hmem'. by exists dr, dc. }
  destruct (for_append_spec
    (λ r, for_append (λ c, placements_at g word r c directions) (range (len g)))
    (range (len g))) as (ps & Hps & Hmem).
  { intros r _. destruct (Hinner r) as (ps & Hps & _). by exists ps. }
  exists ps. split; [done|]. intros r c dr dc. rewrite Hmem, in_bounds_spec. split.
  - intros (r' & ys & Hr%elem_of_range & Hys & Hp).
    destruct (Hinner r') as (ps' & Hps' & Hmem').
    rewrite Hys in Hps'. injection Hps' as <-.
    apply Hmem' in Hp as (c' & dr' & dc' & Heq & Hc & Hrest).
    injection Heq as -> -> -> ->. done.
  - intros ((Hr & Hc) & Hrest).
    destruct (Hinner r) as (ps' & Hps' & Hmem').
    exists r, ps'. split; [by apply elem_of_range|]. split; [done|].
    apply Hmem'. by exists c, dr, dc.
Qed.

(** ** Grids that extend one another *)

Lemma extends_refl g : square g → extends g g.
Proof. intros Hsq. by split; [|split]. Qed.

Lemma extends_trans g1 g2 g3 : extends g1 g2 → extends g2 g3 → extends g1 g3.
Proof.
  intros (Hsq2 & Hlen2 & Hkeep2) (Hsq3 & Hlen3 & Hkeep3).
  split; [done|]. split; [congruence|].
  intros r c cell Hin Hcell Hne. apply Hkeep3; [by rewrite Hlen2|by eapply Hkeep2|done].
Qed.

Lemma written_extends g h word r c dr dc :
  extends g h → written g word r c dr dc → written h word r c dr dc.
Proof.
  intros (Hsq & Hlen & Hkeep). apply along_impl. intros i ch _ [Hin Hcell].
  split; [by rewrite Hlen|]. apply Hkeep; [done..|apply str1_not_EMPTY].
Qed.

Lemma appears_extends g h directions word :
  extends g h → appears g directions word → appears h directions word.
Proof.
  intros Hext (r & c & dr & dc & Hin & Hdir & Hne & Hw).
  exists r, c, dr, dc. destruct Hext as (Hsq & Hlen & Hkeep) eqn:E.
  split; [by rewrite Hlen|]. split; [done|]. split; [done|].
  by eapply written_extends.
Qed.

(** A word that can be read in a grid [h] can be placed there on every
    grid that [h] extends. *)
Lemma written_accepts g h word r c dr dc :
  square g → extends g h → written h word r c dr dc →
  along word (cell_accepts g r c dr dc).
Proof.
  intros Hsq (Hsqh & Hlen & Hkeep). apply along_impl. intros i ch _ [Hin Hcell].
  rewrite Hlen in Hin. split; [done|].
  destruct (grid_get_is_Some g _ _ Hsq Hin) as [cell Hg]. exists cell.
  split; [done|]. destruct (decide (cell = EMPTY)) as [|Hne]; [by left|right].
  specialize (Hkeep _ _ _ Hin Hg Hne). congruence.
Qed.

(** Placing a word where a grid [h] above shows it stays below [h]. *)
Lemma place_loop_below g h word i r c dr dc g1 changed :
  square g → extends g h →
  along word (λ k, cell_spells h r c dr dc (i + k)) →
  place_loop g word i r c dr dc = Some (g1, changed) →
  extends g1 h.
Proof.
  revert g i changed. induction word as [|ch word IH];
    intros g i changed Hsq Hext Hspell Hplace.
  { simpl in Hplace. by simplify_eq. }
  apply along_cons in Hspell as [[Hin Hh] Hspell]. rewrite Z.add_0_r in Hin, Hh.
  assert (Hspell' : along word (λ k, cell_spells h r c dr dc (i + 1 + k))).
  { revert Hspell. apply along_impl. intros k ch' _.
    by replace (i + (k + 1)) with (i + 1 + k) by lia. }
  pose proof Hext as (Hsqh & Hlen & Hkeep). rewrite Hlen in Hin.
  simpl in Hplace. destruct (grid_get_is_Some g _ _ Hsq Hin) as [cell Hcell].
  rewrite Hcell in Hplace. simpl in Hplace.
  destruct (String.eqb_spec cell EMPTY) as [Heq|Hne].
  - destruct (grid_set_spec g _ _ (str1 ch) Hsq Hin)
      as (g0 & Hset & Hsq0 & Hlen0 & Hget0 & Hframe0).
    rewrite Hset in Hplace. simpl in Hplace.
    destruct (place_loop g0 word (i + 1) r c dr dc) as [[g' changed']|] eqn:Hpl;
      [|done]. simpl in Hplace. injection Hplace as <- <-.
    apply (IH g0 (i + 1) changed' Hsq0); [|done|done].
    split; [done|]. split; [congruence|].
    intros r' c' cell' Hin' Hcell' Hne'. rewrite Hlen0 in Hin'.
    destruct (decide ((r', c') = (r + i * dr, c + i * dc))) as [Hrc|Hneq].
    + injection Hrc as -> ->. congruence.
    + rewrite Hframe0 in Hcell' by done. by apply Hkeep.
  - by apply (IH g (i + 1) changed Hsq).
Qed.

(** Every cell of the grid is empty or holds one character, which
    satisfies [P]. *)
Definition letters_in (P : ascii → Prop) (g : grid) : Prop :=
  ∀ r c cell, in_bounds (len g) r c = true → grid_get g r c = Some cell →
    cell = EMPTY ∨ ∃ ch, cell = str1 ch ∧ P ch.

(** Every character of the word satisfies [P]. *)
Definition word_in (P : ascii → Prop) (word : string) : Prop :=
  along word (λ _ ch, P ch).

Lemma place_loop_letters P g word i r c dr dc g1 changed :
  square g → spans g word i r c dr dc →
  letters_in P g → word_in P word →
  place_loop g word i r c dr dc = Some (g1, changed) →
  letters_in P g1.
Proof.
  revert g i changed. induction word as [|ch word IH];
    intros g i changed Hsq Hspan Hg Hword Hplace.
  { simpl in Hplace. by simplify_eq. }
  apply along_cons in Hspan as [Hin Hspan]. rewrite Z.add_0_r in Hin.
  apply along_cons in Hword as [Hch Hword].
  assert (Hspan' : ∀ g0, len g0 = len g → spans g0 word (i + 1) r c dr dc).
  { intros g0 Hlen0. revert Hspan. apply along_impl. intros k _ _.
    rewrite Hlen0. by replace (i + 1 + k) with (i + (k + 1)) by lia. }
  simpl in Hplace. destruct (grid_get_is_Some g _ _ Hsq Hin) as [cell Hcell].
  rewrite Hcell in Hplace. simpl in Hplace.
  destruct (String.eqb_spec cell EMPTY) as [Heq|Hne].
  - destruct (grid_set_spec g _ _ (str1 ch) Hsq Hin)
      as (g0 & Hset & Hsq0 & Hlen0 & Hget0 & Hframe0).
    rewrite Hset in Hplace. simpl in Hplace.
    destruct (place_loop g0 word (i + 1) r c dr dc) as [[g' changed']|] eqn:Hpl;
      [|done]. simpl in Hplace. injection Hplace as <- <-.
    apply (IH g0 (i + 1) changed' Hsq0 (Hspan' g0 Hlen0)); [|done|done].
    intros r' c' cell' Hin' Hcell'. rewrite Hlen0 in Hin'.
    destruct (decide ((r', c') = (r + i * dr, c + i * dc))) as [Hrc|Hneq].
    + injection Hrc as -> ->. right. exists ch. split; [congruence|done].
    + rewrite Hframe0 in Hcell' by done. by eapply Hg.
  - by apply (IH g (i + 1) changed Hsq (Hspan' g eq_refl)).
Qed.

(** ** The backtracking search *)

(** A candidate the enumeration yields for [word] on [g]. *)
Definition candidate (directions : list Direction) (g : grid) (word : string)
    (p : Placement) : Prop :=
  in_bounds (len g) p.1.1 p.1.2 = true ∧ p.2 ∈ directions ∧ p.2 ≠ (0, 0) ∧
  can_place_word g word p.1.1 p.1.2 p.2.1 p.2.2 = Some true.

(** Some grid above [g] shows every word of [todo]: the words can all be
    placed on top of what [g] holds. *)
Definition completable (directions : list Direction) (todo : list string)
    (g : grid) : Prop :=
  ∃ h, extends g h ∧ Forall (appears h directions) todo.

Section Search.
Context `{RandomSource}.
Variable directions : list Direction.

(** What a call of the search on [todo] from grid [g] guarantees about
    its result: on failure the grid is as it was and no arrangement
    exists; on success the grid extends [g], shows every word, and holds
    no character other than those of [g] and of the words. *)
Definition search_post (todo : list string) (g : grid)
    (res : bool * grid * rng_state) : Prop :=
  square res.1.2 ∧ len res.1.2 = len g ∧
  (res.1.1 = false → res.1.2 = g ∧ ¬ completable directions todo g) ∧
  (res.1.1 = true →
     extends g res.1.2 ∧ Forall (appears res.1.2 directions) todo ∧
     ∀ P, letters_in P g → Forall (word_in P) todo → letters_in P res.1.2).

Lemma candidate_place g word p :
  square g → candidate directions g word p →
  ∃ g1 changed,
    place_word g word p.1.1 p.1.2 p.2.1 p.2.2 = Some (g1, changed) ∧
    square g1 ∧ extends g g1 ∧ appears g1 directions word ∧
    undo_changes g1 changed = Some g ∧
    ∀ P, letters_in P g → word_in P word → letters_in P g1.
Proof.
  destruct p as [[r c] [dr dc]]. simpl. intros Hsq (Hin & Hdir & Hne & Hcan).
  simpl in *. apply can_place_word_true in Hcan; [|done].
  assert (Hacc : along word (λ k, cell_accepts g r c dr dc (0 + k))).
  { revert Hcan. apply along_impl. intros k ch _. by rewrite Z.add_0_l. }
  pose proof (accepts_spans _ _ _ _ _ _ _ Hacc) as Hspan.
  destruct (place_loop_spec g word 0 r c dr dc Hsq Hspan)
    as (g1 & changed & Hplace & Hsq1 & Hlen1 & _).
  exists g1, changed. unfold place_word. split; [done|]. split; [done|].
  split; [by eapply place_loop_extends|].
  split; [|split; [by eapply place_loop_undo|]].
  - exists r, c, dr, dc.
    split; [by rewrite Hlen1|]. split; [done|]. split; [done|].
    generalize (place_loop_written _ _ _ _ _ _ _ _ _ Hsq Hne Hacc Hplace).
    apply along_impl. intros k ch _. by rewrite Z.add_0_l.
  - intros P Hg Hword.
    exact (place_loop_letters P g word 0 r c dr dc g1 changed
             Hsq Hspan Hg Hword Hplace).
Qed.

Lemma try_placements_spec recurse word todo g :
  square g →
  (∀ g1 rng, square g1 →
     ∃ res, recurse g1 rng = Some res ∧ search_post todo g1 res) →
  ∀ placements rng,
    Forall (candidate directions g word) placements →
    ∃ res, try_placements recurse word placements g rng = Some res ∧
      square res.1.2 ∧ len res.1.2 = len g ∧
      (res.1.1 = false →
         res.1.2 = g ∧
         ∀ p g1 changed, p ∈ placements →
           place_word g word p.1.1 p.1.2 p.2.1 p.2.2 = Some (g1, changed) →
           ¬ completable directions todo g1) ∧
      (res.1.1 = true →
         extends g res.1.2 ∧
         Forall (appears res.1.2 directions) (word :: todo) ∧
         ∀ P, letters_in P g → Forall (word_in P) (word :: todo) →
              letters_in P res.1.2).
Proof.
  intros Hsq Hrec placements.
  induction placements as [|p placements IH]; intros rng Hcands.
  { exists (false, g, rng). simpl. repeat split; try done.
    intros p g1 changed Hp. by apply elem_of_nil in Hp. }
  apply Forall_cons in Hcands as [Hcand Hcands].
  destruct (candidate_place g word p Hsq Hcand)
    as (g1 & changed & Hplace & Hsq1 & Hext1 & Happ1 & Hundo & Hletters1).
  destruct (Hrec g1 rng Hsq1)
    as ([[ok g2] rng2] & Hres & Hsq2 & Hlen2 & Hfail & Hsucc).
  simpl in *. destruct p as [[r c] [dr dc]]. simpl in *.
  rewrite Hplace. simpl. rewrite Hres. simpl. destruct ok.
  - exists (true, g2, rng2). simpl. split; [done|]. split; [done|].
    destruct (Hsucc eq_refl) as (Hext2 & Hall & Hletters2).
    split; [destruct Hext1 as (_ & <- & _); done|]. split; [done|].
    intros _. split; [by eapply extends_trans|]. split.
    + apply Forall_cons. split; [by eapply appears_extends|done].
    + intros P Hg [Hword Hwords]%Forall_cons.
      apply Hletters2; [|done]. by apply Hletters1.
  - destruct (Hfail eq_refl) as [-> Hnone]. rewrite Hundo. simpl.
    destruct (IH rng2 Hcands) as (res & Htry & Hsq' & Hlen' & Hfail' & Hsucc').
    exists res. split; [done|]. split; [done|]. split; [done|]. split; [|done].
    intros Hok. destruct (Hfail' Hok) as [Hg Hrest]. split; [done|].
    intros p g1' changed' [->|Hp]%elem_of_cons Hplace'.
    + simpl in Hplace'. rewrite Hplace in Hplace'. by injection Hplace' as <- <-.
    + by eapply Hrest.
Qed.

Lemma backtrack_from_spec todo :
  ∀ g rng, square g →
    ∃ res, backtrack_from directions todo g rng = Some res ∧
           search_post todo g res.
Proof.
  induction todo as [|word todo IH]; intros g rng Hsq.
  { exists (true, g, rng). simpl. split; [done|]. split; [done|]. split; [done|].
    split; [done|]. intros _. split; [by apply extends_refl|]. by split. }
  simpl. destruct (all_possible_placements_spec g word directions Hsq)
    as (ps & Hps & Hmem).
  rewrite Hps. simpl. pose proof (shuffle_perm _ ps rng) as Hperm.
  destruct (shuffle ps rng) as [ps' rng1]. simpl in Hperm.
  destruct (try_placements_spec (backtrack_from directions todo) word todo g
              Hsq IH ps' rng1) as (res & Htry & Hsq' & Hlen' & Hfail & Hsucc).
  { rewrite Hperm. apply Forall_forall. intros [[r c] [dr dc]] Hp.
    by apply Hmem in Hp. }
  exists res. split; [done|]. split; [done|]. split; [done|]. split; [|done].
  intros Hok. destruct (Hfail Hok) as [Hg Hrest]. split; [done|].
  intros (h & Hext & Hall). apply Forall_cons in Hall as [Hword Hall].
  destruct Hword as (r & c & dr & dc & Hin & Hdir & Hne & Hw).
  pose proof Hext as (Hsqh & Hlenh & _). rewrite Hlenh in Hin.
  assert (Hcand : candidate directions g word (r, c, (dr, dc))).
  { split; [done|]. split; [done|]. split; [done|]. simpl.
    apply can_place_word_true; [done|]. by eapply written_accepts. }
  destruct (candidate_place g word _ Hsq Hcand)
    as (g1 & changed & Hplace & Hsq1 & _).
  apply (Hrest (r, c, (dr, dc)) g1 changed); [|done|].
  - rewrite Hperm. by apply Hmem.
  - exists h. split; [|done]. simpl in Hplace.
    eapply (place_loop_below g h word 0); [done|done| |exact Hplace].
    revert Hw. apply along_impl. intros k ch _. by rewrite Z.add_0_l.
Qed.

End Search.

(** ** [fill_empty_with_random_letters] *)

(** [g'] is [g] with some of its empty cells filled with letters [A]..[Z]. *)
Definition fills (g g' : grid) : Prop :=
  square g' ∧ len g' = len g ∧
  ∀ r c, in_bounds (len g) r c = true →
    ∃ cell', grid_get g' r c = Some cell' ∧
      (grid_get g r c = Some cell' ∨
       (grid_get g r c = Some EMPTY ∧ uppercase_letter cell')).

Lemma uppercase_not_EMPTY cell : uppercase_letter cell → cell ≠ EMPTY.
Proof. intros (ch & -> & _). apply str1_not_EMPTY. Qed.

Lemma ascii_uppercase_letters :
  Forall (λ ch, (65 ≤ nat_of_ascii ch ≤ 90)%nat)
         (list_ascii_of_string ascii_uppercase).
Proof. unfold ascii_uppercase. simpl. repeat constructor; simpl; lia. Qed.

Lemma ascii_uppercase_nonempty : list_ascii_of_string ascii_uppercase ≠ [].
Proof. done. Qed.

Lemma fills_refl g : square g → fills g g.
Proof.
  intros Hsq. split; [done|]. split; [done|]. intros r c Hin.
  destruct (grid_get_is_Some g r c Hsq Hin) as [cell Hcell].
  exists cell. split; [done|by left].
Qed.

Lemma fills_trans g1 g2 g3 : fills g1 g2 → fills g2 g3 → fills g1 g3.
Proof.
  intros (Hsq2 & Hlen2 & H12) (Hsq3 & Hlen3 & H23).
  split; [done|]. split; [congruence|]. intros r c Hin.
  destruct (H12 r c Hin) as (cell2 & Hg2 & Hfrom1).
  destruct (H23 r c) as (cell3 & Hg3 & Hfrom2); [by rewrite Hlen2|].
  exists cell3. split; [done|].
  destruct Hfrom2 as [Hsame|[Hempty Hup]].
  - assert (cell2 = cell3) as -> by congruence. done.
  - right. split; [|done]. assert (cell2 = EMPTY) as -> by congruence.
    destruct Hfrom1 as [|[? _]]; done.
Qed.

Lemma fills_keep g g' r c cell :
  fills g g' → in_bounds (len g) r c = true →
  grid_get g r c = Some cell → cell ≠ EMPTY → grid_get g' r c = Some cell.
Proof.
  intros (_ & _ & Hcells) Hin Hcell Hne.
  destruct (Hcells r c Hin) as (cell' & Hg' & [Hsame|[Hempty _]]); congruence.
Qed.

Lemma fills_extends g g' : fills g g' → extends g g'.
Proof.
  intros Hfill. pose proof Hfill as (Hsq & Hlen & _).
  split; [done|]. split; [done|]. intros r c cell. by apply fills_keep.
Qed.

Section Fill.
Context `{RandomSource}.
Local Opaque ascii_uppercase.

Lemma fill_row_spec g rng r cols :
  square g → 0 ≤ r < len g → Forall (λ c, 0 ≤ c < len g) cols →
  ∃ g' rng', fill_row g rng r cols = Some (g', rng') ∧ fills g g' ∧
    ∀ c, c ∈ cols → grid_get g' r c ≠ Some EMPTY.
Proof.
  revert g rng. induction cols as [|c cols IH]; intros g rng Hsq Hr Hcols.
  { exists g, rng. split; [done|]. split; [by apply fills_refl|].
    intros c Hc. by apply elem_of_nil in Hc. }
  apply Forall_cons in Hcols as [Hc Hcols].
  assert (Hin : in_bounds (len g) r c = true) by by apply in_bounds_spec.
  destruct (grid_get_is_Some g r c Hsq Hin) as [cell Hcell].
  simpl. rewrite Hcell. simpl.
  destruct (String.eqb_spec cell EMPTY) as [Heq|Hne].
  - destruct (choice_nonempty _ (list_ascii_of_string ascii_uppercase) rng)
      as [[ch rng1] Hchoice]; [apply ascii_uppercase_nonempty|].
    rewrite Hchoice. simpl.
    assert (Hup : uppercase_letter (str1 ch)).
    { exists ch. split; [done|]. apply choice_elem in Hchoice.
      pose proof ascii_uppercase_letters as Hall.
      rewrite Forall_forall in Hall. by apply Hall. }
    destruct (grid_set_spec g r c (str1 ch) Hsq Hin)
      as (g1 & Hset & Hsq1 & Hlen1 & Hget1 & Hframe1).
    rewrite Hset. simpl.
    destruct (IH g1 rng1 Hsq1) as (g' & rng' & Hrow & Hfill' & Hdone);
      [by rewrite Hlen1|by rewrite Hlen1|].
    exists g', rng'. split; [done|].
    assert (Hfill1 : fills g g1).
    { split; [done|]. split; [done|]. intros r' c' Hin'.
      destruct (decide ((r', c') = (r, c))) as [Hrc|Hneq].
      - injection Hrc as -> ->. exists (str1 ch). split; [done|right].
        split; [congruence|done].
      - destruct (grid_get_is_Some g r' c' Hsq Hin') as [cell' Hcell'].
        exists cell'. split; [|by left]. by rewrite Hframe1. }
    split; [by eapply fills_trans|].
    intros c' [->|Hc']%elem_of_cons; [|by apply Hdone].
    assert (Hkept : grid_get g' r c = Some (str1 ch)).
    { apply (fills_keep g1 g'); [done|by rewrite Hlen1|done|].
      apply str1_not_EMPTY. }
    rewrite Hkept. intros Hbad. apply (str1_not_EMPTY ch). congruence.
  - destruct (IH g rng Hsq Hr Hcols) as (g' & rng' & Hrow & Hfill' & Hdone).
    exists g', rng'. split; [done|]. split; [done|].
    intros c' [->|Hc']%elem_of_cons; [|by apply Hdone].
    assert (Hkept : grid_get g' r c = Some cell) by by apply (fills_keep g g').
    rewrite Hkept. congruence.
Qed.

Lemma fill_rows_spec g rng rows :
  square g → Forall (λ r, 0 ≤ r < len g) rows →
  ∃ g' rng', fill_rows g rng rows = Some (g', rng') ∧ fills g g' ∧
    ∀ r c, r ∈ rows → 0 ≤ c < len g → grid_get g' r c ≠ Some EMPTY.
Proof.
  revert g rng. induction rows as [|r rows IH]; intros g rng Hsq Hrows.
  { exists g, rng. split; [done|]. split; [by apply fills_refl|].
    intros r c Hr. by apply elem_of_nil in Hr. }
  apply Forall_cons in Hrows as [Hr Hrows].
  destruct (fill_row_spec g rng r (range (len g)) Hsq Hr)
    as (g1 & rng1 & Hrow & Hfill1 & Hdone1).
  { apply Forall_forall. intros c. by rewrite elem_of_range. }
  pose proof Hfill1 as (Hsq1 & Hlen1 & _).
  destruct (IH g1 rng1 Hsq1) as (g' & rng' & Hrest & Hfill' & Hdone');
    [by rewrite Hlen1|].
  exists g', rng'. simpl. rewrite Hrow. simpl. split; [done|].
  split; [by eapply fills_trans|].
  intros r' c [->|Hr']%elem_of_cons Hc; [|apply Hdone'; [done|by rewrite Hlen1]].
  destruct (grid_get_is_Some g1 r c Hsq1) as [cell Hcell];
    [apply in_bounds_spec; by rewrite Hlen1|].
  assert (Hne : cell ≠ EMPTY).
  { intros ->. by apply (Hdone1 c); [apply elem_of_range|]. }
  assert (Hkept : grid_get g' r c = Some cell).
  { apply (fills_keep g1 g'); [done| |done|done].
    apply in_bounds_spec. by rewrite Hlen1. }
  rewrite Hkept. congruence.
Qed.

Lemma fill_empty_spec g rng :
  square g →
  ∃ g' rng', fill_empty_with_random_letters g rng = Some (g', rng') ∧
    fills g g' ∧
    ∀ r c, in_bounds (len g) r c = true → grid_get g' r c ≠ Some EMPTY.
Proof.
  intros Hsq.
  destruct (fill_rows_spec g rng (range (len g)) Hsq)
    as (g' & rng' & Hfill & Hfills & Hdone).
  { apply Forall_forall. intros r. by rewrite elem_of_range. }
  exists g', rng'. split; [done|]. split; [done|].
  intros r c [Hr Hc]%in_bounds_spec. apply Hdone; [by apply elem_of_range|done].
Qed.

End Fill.

(** ** Normalising the word list *)

Lemma insert_by_len_perm w l : insert_by_len w l ≡ₚ w :: l.
Proof.
  induction l as [|y l IH]; simpl; [done|].
  destruct (String.length y <=? String.length w)%nat; [done|].
  rewrite IH. apply Permutation_swap.
Qed.

Lemma sort_by_len_desc_perm l : sort_by_len_desc l ≡ₚ l.
Proof.
  induction l as [|w l IH]; simpl; [done|].
  by rewrite insert_by_len_perm, IH.
Qed.

Section Clean.
Context `{StrMethods}.

(** The normal form of one word: [w.strip().upper().replace(" ", "")]. *)
Definition normal (w : string) : string := remove_spaces (upper (strip w)).

Lemma elem_of_clean words w :
  w ∈ clean words ↔
  ∃ w0, w0 ∈ words ∧ strip w0 ≠ EmptyString ∧ w = normal w0.
Proof.
  unfold clean. rewrite sort_by_len_desc_perm, list_elem_of_fmap. split.
  - intros (w0 & -> & [Hne Hw0]%list_elem_of_filter). by exists w0.
  - intros (w0 & Hw0 & Hne & ->). exists w0. split; [done|].
    by apply list_elem_of_filter.
Qed.

End Clean.

(** ** [generate_wordsearch] *)

(** A word written along a non-zero direction is no longer than the grid. *)
Lemma span_length size word r c dr dc :
  (dr, dc) ≠ (0, 0) → 0 ≤ size →
  along word (λ k _, in_bounds size (r + k * dr) (c + k * dc) = true) →
  Z.of_nat (String.length word) ≤ size.
Proof.
  intros Hdir Hsize Hspan.
  destruct (decide (Z.of_nat (String.length word) ≤ size)) as [|Hlong]; [done|].
  exfalso. apply Hdir.
  destruct (get_is_Some word 0) as [ch0 Hch0]; [lia|].
  destruct (get_is_Some word (Z.to_nat size)) as [ch1 Hch1]; [lia|].
  apply Hspan in Hch0. apply Hspan in Hch1.
  apply in_bounds_spec in Hch0. apply in_bounds_spec in Hch1.
  rewrite Z2Nat.id in Hch1 by done. simpl in Hch0.
  assert (dr = 0) as -> by nia. assert (dc = 0) as -> by nia. done.
Qed.

Lemma appears_length g directions word :
  appears g directions word → Z.of_nat (String.length word) ≤ len g.
Proof.
  intros (r & c & dr & dc & _ & _ & Hne & Hw).
  apply (span_length (len g) word r c dr dc); [done|unfold len; lia|].
  revert Hw. apply along_impl. by intros k ch _ [Hin _].
Qed.

Lemma empty_grid_completable size directions todo :
  completable directions todo (make_empty_grid size) ↔
  ∃ h, arrangement size directions todo h.
Proof.
  split.
  - intros (h & (Hsq & Hlen & _) & Hall). exists h.
    split; [done|]. split; [|done]. by rewrite Hlen, len_make_empty_grid.
  - intros (h & Hsq & Hlen & Hall). exists h. split; [|done].
    split; [done|]. split; [by rewrite len_make_empty_grid|].
    intros r c cell Hin Hcell Hne. rewrite len_make_empty_grid in Hin.
    rewrite grid_get_make_empty_grid in Hcell by done. congruence.
Qed.

Section Generate.
Context `{RandomSource} `{StrMethods}.

Lemma backtrack_place_words_0 g words directions rng :
  backtrack_place_words g words 0 directions rng =
  backtrack_from directions words g rng.
Proof. reflexivity. Qed.

(** The two ways a call can end: no arrangement of the words exists and
    [ValueError] is raised, or a grid is returned that shows every word
    and has, in every cell, one character: a letter [A]..[Z] or a
    character of the words. *)
Lemma generate_wordsearch_spec entropy words size allow_diagonals seed :
  let directions := directions_for allow_diagonals in
  let result := generate_wordsearch entropy words size allow_diagonals seed in
  (result = Raised ValueError ∧
   ¬ ∃ h, arrangement size directions (clean words) h) ∨
  (∃ g, result = Returned g ∧
     arrangement size directions (clean words) g ∧
     ∀ P, Forall (word_in P) (clean words) →
       ∀ r c, in_bounds (len g) r c = true →
         ∃ ch, grid_get g r c = Some (str1 ch) ∧
               ((65 ≤ nat_of_ascii ch ≤ 90)%nat ∨ P ch)).
Proof.
  intros directions result. subst result.
  unfold generate_wordsearch. rewrite backtrack_place_words_0.
  destruct (backtrack_from_spec directions (clean words)
              (make_empty_grid size) (Random entropy seed)
              (square_make_empty_grid size))
    as ([[ok g2] rng2] & Hres & Hsq2 & Hlen2 & Hfail & Hsucc).
  fold directions. rewrite Hres. cbn [fst snd] in *. destruct ok.
  - right. destruct (Hsucc eq_refl) as (Hext & Hall & Hletters).
    destruct (fill_empty_spec g2 rng2 Hsq2) as (g3 & rng3 & Hfill & Hfills & Hfull).
    rewrite Hfill. exists g3. split; [done|].
    pose proof Hfills as (Hsq3 & Hlen3 & Hcells). split.
    + split; [done|]. split; [by rewrite Hlen3, Hlen2, len_make_empty_grid|].
      eapply Forall_impl; [exact Hall|]. intros w.
      apply appears_extends. by apply fills_extends.
    + intros P HP r c Hin. rewrite Hlen3 in Hin.
      destruct (Hcells r c Hin) as (cell & Hcell & Hfrom).
      destruct Hfrom as [Hsame|[_ (ch & -> & Hup)]]; [|exists ch; by split; [|left]].
      assert (Hlet : letters_in P g2).
      { apply Hletters; [|done]. intros r' c' cell' Hin' Hcell'. left.
        rewrite len_make_empty_grid in Hin'.
        rewrite grid_get_make_empty_grid in Hcell' by done. congruence. }
      destruct (Hlet r c cell Hin Hsame) as [->|(ch & -> & Hch)].
      * by destruct (Hfull r c Hin).
      * exists ch. by split; [|right].
  - left. split; [done|]. destruct (Hfail eq_refl) as [_ Hnone].
    by rewrite <- empty_grid_completable.
Qed.

End Generate.

(** ** The sample runtime satisfies the interfaces *)

Module SampleRuntime.

Lemma rotate_perm A (l : list A) (s : nat) : (Sample.shuffle l s).1 ≡ₚ l.
Proof.
  unfold Sample.shuffle. simpl.
  rewrite Permutation_app_comm. by rewrite take_drop.
Qed.

Lemma pick_elem A (l : list A) (s : nat) x s' :
  Sample.choice l s = Some (x, s') → x ∈ l.
Proof.
  unfold Sample.choice. intros Hchoice.
  destruct (l !! (s `mod` length l)%nat) as [y|] eqn:Hy; [|done].
  simpl in Hchoice. injection Hchoice as -> _. by eapply list_elem_of_lookup_2.
Qed.

Lemma pick_nonempty A (l : list A) (s : nat) :
  l ≠ [] → is_Some (Sample.choice l s).
Proof.
  intros Hl. unfold Sample.choice.
  destruct (lookup_lt_is_Some_2 l (s `mod` length l)%nat) as [x Hx].
  { apply Nat.mod_upper_bound. destruct l; simpl; [done|lia]. }
  rewrite Hx. by eexists.
Qed.

Definition random : RandomSource := {|
  rng_state := nat;
  seeded := Z.abs_nat;
  shuffle := @Sample.shuffle;
  choice := @Sample.choice;
  shuffle_perm := rotate_perm;
  choice_elem := pick_elem;
  choice_nonempty := pick_nonempty;
|}.

Definition str : StrMethods := {|
  strip := Sample.strip;
  upper := Sample.upper;
|}.

(** [generate_wordsearch] on the sample runtime, with the generator seeded
    by [seed]. *)
Definition generate (words : list string) (size : Z) (allow_diagonals : bool)
    (seed : Z) : outcome :=
  @generate_wordsearch random str 0%nat words size allow_diagonals (Some seed).

Lemma rotateZ_perm A (l : list A) (z : Z) : (Sample.shuffleZ l z).1 ≡ₚ l.
Proof. apply rotate_perm. Qed.

Lemma pickZ_elem A (l : list A) (z : Z) x z' :
  Sample.choiceZ l z = Some (x, z') → x ∈ l.
Proof.
  unfold Sample.choiceZ.
  destruct (Sample.choice l (Z.to_nat z)) as [[y s']|] eqn:Hpick; [|done].
  simpl. intros Heq. injection Heq as <- _. by eapply pick_elem.
Qed.

Lemma pickZ_nonempty A (l : list A) (z : Z) :
  l ≠ [] → is_Some (Sample.choiceZ l z).
Proof.
  intros Hne. unfold Sample.choiceZ.
  destruct (pick_nonempty A l (Z.to_nat z) Hne) as [[y s'] Hpick].
  rewrite Hpick. by eexists.
Qed.

Definition randomZ : RandomSource := {|
  rng_state := Z;
  seeded := Z.abs;
  shuffle := @Sample.shuffleZ;
  choice := @Sample.choiceZ;
  shuffle_perm := rotateZ_perm;
  choice_elem := pickZ_elem;
  choice_nonempty := pickZ_nonempty;
|}.

End SampleRuntime.

(** ** The recursion of [backtrack_place_words], as the source writes it *)

Section Unfolding.
Context `{RandomSource}.

(** [if idx == len(words): return True]; otherwise [word = words[idx]],
    the placements are enumerated and shuffled, and the loop recurses at
    [idx + 1]. *)
Lemma backtrack_place_words_unfold g words idx directions rng :
  backtrack_place_words g words idx directions rng =
  if (idx =? length words)%nat then Some (true, g, rng)
  else
    word ← words !! idx;
    placements ← all_possible_placements g word directions;
    let '(placements, rng1) := shuffle placements rng in
    try_placements
      (λ g rng, backtrack_place_words g words (S idx) directions rng)
      word placements g rng1.
Proof.
  unfold backtrack_place_words.
  destruct (Nat.eqb_spec idx (length words)) as [->|Hne].
  { by rewrite Nat.leb_refl, drop_all. }
  destruct (Nat.leb_spec idx (length words)) as [Hle|Hgt].
  - destruct (lookup_lt_is_Some_2 words idx) as [word Hword]; [lia|].
    assert (Hnext : (S idx <=? length words)%nat = true)
      by (apply Nat.leb_le; lia).
    rewrite Hnext, Hword, (drop_S _ _ _ Hword). simpl.
    destruct (all_possible_placements g word directions) as [ps|]; [|done].
    simpl. by destruct (shuffle ps rng) as [ps' rng1].
  - by rewrite lookup_ge_None_2 by lia.
Qed.

End Unfolding.

(** ** The program reads its generator through [shuffle] and [choice] only *)

Section SameAnswers.
Context (R1 R2 : RandomSource).
Variable rel : @rng_state R1 → @rng_state R2 → Prop.
Hypothesis Hsame : same_answers R1 R2 rel.

(** The two runs agree on what they return and leave related generators. *)
Definition agree {A} : option (A * @rng_state R1) → option (A * @rng_state R2) → Prop :=
  option_Forall2 (λ a b, a.1 = b.1 ∧ rel a.2 b.2).

Lemma try_placements_agree recurse1 recurse2 word placements :
  (∀ g s1 s2, rel s1 s2 → agree (recurse1 g s1) (recurse2 g s2)) →
  ∀ g s1 s2, rel s1 s2 →
    agree (@try_placements R1 recurse1 word placements g s1)
          (@try_placements R2 recurse2 word placements g s2).
Proof.
  intros Hrec. induction placements as [|[[r c] [dr dc]] rest IH];
    intros g s1 s2 Hrel.
  { by constructor. }
  cbn [try_placements].
  destruct (place_word g word r c dr dc) as [[g1 changed]|]; [|constructor].
  cbn [mbind option_bind].
  destruct (Hrec g1 s1 s2 Hrel) as [[[ok1 g2] t1] [[ok2 g2'] t2] [Heq Hrel']|];
    [|constructor].
  simpl in Heq, Hrel'. injection Heq as <- <-. cbn [mbind option_bind].
  destruct ok1; [by constructor|].
  destruct (undo_changes g2 changed) as [g3|]; [|constructor].
  cbn [mbind option_bind]. by apply IH.
Qed.

Lemma backtrack_from_agree directions todo :
  ∀ g s1 s2, rel s1 s2 →
    agree (@backtrack_from R1 directions todo g s1)
          (@backtrack_from R2 directions todo g s2).
Proof.
  induction todo as [|word todo IH]; intros g s1 s2 Hrel.
  { by constructor. }
  cbn [backtrack_from].
  destruct (all_possible_placements g word directions) as [ps|]; [|constructor].
  cbn [mbind option_bind].
  destruct Hsame as [Hshuffle _].
  destruct (Hshuffle _ ps s1 s2 Hrel) as [Heq Hrel'].
  destruct (@shuffle R1 _ ps s1) as [ps1 t1], (@shuffle R2 _ ps s2) as [ps2 t2].
  simpl in Heq, Hrel'. subst ps2.
  by apply try_placements_agree.
Qed.

Lemma fill_row_agree r cols :
  ∀ g s1 s2, rel s1 s2 →
    agree (@fill_row R1 g s1 r cols) (@fill_row R2 g s2 r cols).
Proof.
  induction cols as [|c cols IH]; intros g s1 s2 Hrel.
  { by constructor. }
  cbn [fill_row].
  destruct (grid_get g r c) as [cell|]; [|constructor].
  cbn [mbind option_bind].
  destruct (String.eqb cell EMPTY); [|by apply IH].
  destruct Hsame as [_ Hchoice].
  destruct (Hchoice _ (list_ascii_of_string ascii_uppercase) s1 s2 Hrel)
    as [[ch1 t1] [ch2 t2] [Heq Hrel']|]; [|constructor].
  simpl in Heq, Hrel'. subst ch2. cbn [mbind option_bind].
  destruct (grid_set g r c (str1 ch1)) as [g'|]; [|constructor].
  cbn [mbind option_bind]. by apply IH.
Qed.

Lemma fill_rows_agree rows :
  ∀ g s1 s2, rel s1 s2 →
    agree (@fill_rows R1 g s1 rows) (@fill_rows R2 g s2 rows).
Proof.
  induction rows as [|r rows IH]; intros g s1 s2 Hrel.
  { by constructor. }
  cbn [fill_rows].
  destruct (fill_row_agree r (range (len g)) g s1 s2 Hrel)
    as [[g1 t1] [g2 t2] [Heq Hrel']|]; [|constructor].
  simpl in Heq, Hrel'. subst g2. cbn [mbind option_bind]. by apply IH.
Qed.

Lemma generate_agree `{StrMethods} entropy1 entropy2 words size allow_diagonals seed :
  rel (@Random R1 entropy1 seed) (@Random R2 entropy2 seed) →
  @generate_wordsearch R1 _ entropy1 words size allow_diagonals seed =
  @generate_wordsearch R2 _ entropy2 words size allow_diagonals seed.
Proof.
  intros Hrel. unfold generate_wordsearch. rewrite !backtrack_place_words_0.
  destruct (backtrack_from_agree (directions_for allow_diagonals) (clean words)
              (make_empty_grid size) _ _ Hrel)
    as [[[ok1 g1] t1] [[ok2 g2] t2] [Heq Hrel']|]; [|done].
  simpl in Heq, Hrel'. injection Heq as <- <-.
  destruct ok1; [|done].
  unfold fill_empty_with_random_letters.
  by destruct (fill_rows_agree (range (len g1)) g1 t1 t2 Hrel')
    as [[g3 u1] [g4 u2] [Heq _]|]; [simpl in Heq; subst g4|].
Qed.

End SameAnswers.

(** * The specification, claim by claim *)

(** ** Functions on the grid *)

(** C2. On an N×N grid [can_place_word] returns, and it returns [True]
    exactly when, for every index [i] of the word, the cell
    [(r + i*dr, c + i*dc)] lies in the grid (both coordinates in [0, N))
    and holds either the empty marker or the word's [i]-th letter. *)
Theorem can_place_word_iff (g : grid) word r c dr dc :
  square g →
  ∃ b, can_place_word g word r c dr dc = Some b ∧
    (b = true ↔
     ∀ (i : nat) ch, String.get i word = Some ch →
       (0 ≤ r + Z.of_nat i * dr < len g ∧ 0 ≤ c + Z.of_nat i * dc < len g) ∧
       ∃ cell, grid_get g (r + Z.of_nat i * dr) (c + Z.of_nat i * dc) = Some cell ∧
               (cell = EMPTY ∨ cell = str1 ch)).
Proof.
  intros Hsq. destruct (can_place_word_spec g word r c dr dc Hsq) as (b & Hb & Hiff).
  exists b. split; [done|]. rewrite Hiff. unfold along, cell_accepts.
  split; intros Hall i ch Hget; destruct (Hall i ch Hget) as [Hin Hcell];
    (split; [by apply in_bounds_spec|done]).
Qed.

Lemma can_place_word_iff_witness :
  square [["A"; EMPTY]; [EMPTY; EMPTY]]%string ∧
  ∃ b, can_place_word [["A"; EMPTY]; [EMPTY; EMPTY]]%string "AB" 0 0 0 1 = Some b ∧
    (b = true ↔
     ∀ (i : nat) ch, String.get i "AB"%string = Some ch →
       (0 ≤ 0 + Z.of_nat i * 0 < 2 ∧ 0 ≤ 0 + Z.of_nat i * 1 < 2) ∧
       ∃ cell, grid_get [["A"; EMPTY]; [EMPTY; EMPTY]]%string
                 (0 + Z.of_nat i * 0) (0 + Z.of_nat i * 1) = Some cell ∧
               (cell = EMPTY ∨ cell = str1 ch)).
Proof.
  assert (Hsq : square [["A"; EMPTY]; [EMPTY; EMPTY]]%string)
    by (repeat constructor).
  split; [exact Hsq|].
  exact (can_place_word_iff [["A"; EMPTY]; [EMPTY; EMPTY]]%string "AB" 0 0 0 1 Hsq).
Defined.

(** C3. When [can_place_word] holds on an N×N grid, [place_word] followed
    by [undo_changes] on the change set it returned gives back exactly the
    grid before the placement. *)
Theorem place_undo_roundtrip (g : grid) word r c dr dc :
  square g →
  can_place_word g word r c dr dc = Some true →
  ∃ g' changed,
    place_word g word r c dr dc = Some (g', changed) ∧
    undo_changes g' changed = Some g.
Proof.
  intros Hsq Hcan. apply can_place_word_true in Hcan; [|done].
  assert (Hspan : spans g word 0 r c dr dc).
  { apply accepts_spans. revert Hcan. apply along_impl.
    intros k ch _. by rewrite Z.add_0_l. }
  destruct (place_loop_spec g word 0 r c dr dc Hsq Hspan)
    as (g' & changed & Hplace & _).
  exists g', changed. split; [done|]. by eapply place_loop_undo.
Qed.

Lemma place_undo_roundtrip_witness :
  square [["A"; EMPTY]; [EMPTY; EMPTY]]%string ∧
  can_place_word [["A"; EMPTY]; [EMPTY; EMPTY]]%string "AB" 0 0 0 1 = Some true ∧
  ∃ g' changed,
    place_word [["A"; EMPTY]; [EMPTY; EMPTY]]%string "AB" 0 0 0 1
      = Some (g', changed) ∧
    undo_changes g' changed = Some [["A"; EMPTY]; [EMPTY; EMPTY]]%string.
Proof.
  assert (Hsq : square [["A"; EMPTY]; [EMPTY; EMPTY]]%string)
    by (repeat constructor).
  assert (Hcan : can_place_word [["A"; EMPTY]; [EMPTY; EMPTY]]%string
                   "AB" 0 0 0 1 = Some true) by reflexivity.
  split; [exact Hsq|]. split; [exact Hcan|].
  exact (place_undo_roundtrip _ _ _ _ _ _ Hsq Hcan).
Defined.

(** C4. On an N×N grid and a change set of cells of that grid,
    [undo_changes] sets exactly the listed cells to the empty marker and
    leaves every other cell as it was. *)
Theorem undo_changes_exact (g : grid) changed :
  square g → cells_of g changed →
  ∃ g', undo_changes g changed = Some g' ∧
    square g' ∧ len g' = len g ∧
    (∀ r c, (r, c) ∈ changed → grid_get g' r c = Some EMPTY) ∧
    (∀ r c, in_bounds (len g) r c = true → (r, c) ∉ changed →
       grid_get g' r c = grid_get g r c).
Proof. apply undo_changes_spec. Qed.

Lemma undo_changes_exact_witness :
  square [["A"; "B"]; ["C"; "D"]]%string ∧
  cells_of [["A"; "B"]; ["C"; "D"]]%string [(0, 1); (1, 0)] ∧
  ∃ g', undo_changes [["A"; "B"]; ["C"; "D"]]%string [(0, 1); (1, 0)] = Some g' ∧
    square g' ∧ len g' = 2 ∧
    (∀ r c, (r, c) ∈ [(0, 1); (1, 0)] → grid_get g' r c = Some EMPTY) ∧
    (∀ r c, in_bounds 2 r c = true → (r, c) ∉ [(0, 1); (1, 0)] →
       grid_get g' r c = grid_get [["A"; "B"]; ["C"; "D"]]%string r c).
Proof.
  assert (Hsq : square [["A"; "B"]; ["C"; "D"]]%string) by (repeat constructor).
  assert (Hcells : cells_of [["A"; "B"]; ["C"; "D"]]%string [(0, 1); (1, 0)])
    by (repeat constructor).
  split; [exact Hsq|]. split; [exact Hcells|].
  exact (undo_changes_exact _ _ Hsq Hcells).
Defined.

(** C5. On an N×N grid [all_possible_placements] returns exactly the
    triples [(r, c, (dr, dc))], over the cells of the grid and the non-zero
    listed directions, on which [can_place_word] succeeds. *)
Theorem all_possible_placements_exact (g : grid) word directions :
  square g →
  ∃ ps, all_possible_placements g word directions = Some ps ∧
    ∀ r c dr dc, (r, c, (dr, dc)) ∈ ps ↔
      in_bounds (len g) r c = true ∧ (dr, dc) ∈ directions ∧
      (dr, dc) ≠ (0, 0) ∧ can_place_word g word r c dr dc = Some true.
Proof. apply all_possible_placements_spec. Qed.

Lemma all_possible_placements_exact_witness :
  square [["A"; EMPTY]; [EMPTY; EMPTY]]%string ∧
  ∃ ps, all_possible_placements [["A"; EMPTY]; [EMPTY; EMPTY]]%string "AB"
          [(0, 1); (0, 0); (1, 0)] = Some ps ∧
    ∀ r c dr dc, (r, c, (dr, dc)) ∈ ps ↔
      in_bounds 2 r c = true ∧ (dr, dc) ∈ [(0, 1); (0, 0); (1, 0)] ∧
      (dr, dc) ≠ (0, 0) ∧
      can_place_word [["A"; EMPTY]; [EMPTY; EMPTY]]%string "AB" r c dr dc
        = Some true.
Proof.
  assert (Hsq : square [["A"; EMPTY]; [EMPTY; EMPTY]]%string)
    by (repeat constructor).
  split; [exact Hsq|].
  exact (all_possible_placements_exact _ "AB" [(0, 1); (0, 0); (1, 0)] Hsq).
Defined.

(** ** The search *)

(** C10. Called on an N×N grid with [idx] at most [len(words)],
    [backtrack_place_words] returns, and whenever it returns [False] the
    grid is exactly as it was on entry. *)
Theorem backtrack_failure_restores `{RandomSource}
    (g : grid) words idx directions rng :
  square g → (idx ≤ length words)%nat →
  ∃ ok g' rng',
    backtrack_place_words g words idx directions rng = Some (ok, g', rng') ∧
    (ok = false → g' = g).
Proof.
  intros Hsq Hidx. unfold backtrack_place_words.
  destruct (Nat.leb_spec idx (length words)) as [_|Hgt]; [|lia].
  destruct (backtrack_from_spec directions (drop idx words) g rng Hsq)
    as ([[ok g'] rng'] & Hres & _ & _ & Hfail & _).
  exists ok, g', rng'. split; [done|]. intros Hok. by destruct (Hfail Hok).
Qed.

Lemma backtrack_failure_restores_witness :
  square [["A"; EMPTY]; [EMPTY; EMPTY]]%string ∧
  (1 ≤ length ["AB"; "CD"; "EF"]%string)%nat ∧
  ∃ ok g' rng',
    @backtrack_place_words SampleRuntime.random
      [["A"; EMPTY]; [EMPTY; EMPTY]]%string ["AB"; "CD"; "EF"]%string 1
      DIRECTIONS_8 0%nat = Some (ok, g', rng') ∧
    (ok = false → g' = [["A"; EMPTY]; [EMPTY; EMPTY]]%string).
Proof.
  assert (Hsq : square [["A"; EMPTY]; [EMPTY; EMPTY]]%string)
    by (repeat constructor).
  assert (Hidx : (1 ≤ length ["AB"; "CD"; "EF"]%string)%nat) by (simpl; lia).
  split; [exact Hsq|]. split; [exact Hidx|].
  exact (@backtrack_failure_restores SampleRuntime.random _ _ 1%nat
           DIRECTIONS_8 0%nat Hsq Hidx).
Defined.

(** ** [generate_wordsearch] *)

Section Claims.
Context `{RandomSource} `{StrMethods}.

(** C1. In every grid [generate_wordsearch] returns, every input word
    that is not blank can be read in its normalised form (stripped,
    upper-cased, spaces removed): from some cell of the grid, along one of
    the eight directions when diagonals are allowed and one of the four
    axis-aligned ones otherwise, every letter of the word stands in the
    grid at its position of the span. *)
Theorem generate_places_every_word
    entropy words size allow_diagonals seed (g : grid) :
  generate_wordsearch entropy words size allow_diagonals seed = Returned g →
  ∀ w, w ∈ words → strip w ≠ EmptyString →
    ∃ r c dr dc,
      0 ≤ r < len g ∧ 0 ≤ c < len g ∧
      (dr, dc) ∈ (if allow_diagonals
                  then [ (0, 1); (0, -1); (1, 0); (-1, 0);
                         (1, 1); (1, -1); (-1, 1); (-1, -1) ]
                  else [ (0, 1); (0, -1); (1, 0); (-1, 0) ]) ∧
      ∀ (i : nat) ch,
        String.get i (remove_spaces (upper (strip w))) = Some ch →
        0 ≤ r + Z.of_nat i * dr < len g ∧ 0 ≤ c + Z.of_nat i * dc < len g ∧
        grid_get g (r + Z.of_nat i * dr) (c + Z.of_nat i * dc) = Some (str1 ch).
Proof.
  intros Hgen w Hw Hstrip.
  destruct (generate_wordsearch_spec entropy words size allow_diagonals seed)
    as [[Hraise _]|(g' & Hret & (_ & _ & Hall) & _)]; [congruence|].
  rewrite Hgen in Hret. injection Hret as <-.
  rewrite Forall_forall in Hall.
  destruct (Hall (remove_spaces (upper (strip w))))
    as (r & c & dr & dc & Hin & Hdir & _ & Hwritten).
  { apply elem_of_clean. by exists w. }
  apply in_bounds_spec in Hin as [Hr Hc].
  exists r, c, dr, dc. split; [done|]. split; [done|].
  split; [by destruct allow_diagonals|].
  intros i ch Hget. destruct (Hwritten i ch Hget) as [Hin Hcell].
  apply in_bounds_spec in Hin as [Hr' Hc']. done.
Qed.


(** C8, as amended. When the normalised words consist of letters
    [A]..[Z] only, every cell of the N×N grid [generate_wordsearch]
    returns holds a single letter [A]..[Z]. *)
Theorem generate_cells_uppercase
    entropy words size allow_diagonals seed (g : grid) :
  generate_wordsearch entropy words size allow_diagonals seed = Returned g →
  Forall uppercase_word (clean words) →
  square g ∧ len g = Z.max 0 size ∧
  ∀ r c, in_bounds (len g) r c = true →
    ∃ cell, grid_get g r c = Some cell ∧ uppercase_letter cell.
Proof.
  intros Hgen Hwords.
  destruct (generate_wordsearch_spec entropy words size allow_diagonals seed)
    as [[Hraise _]|(g' & Hret & (Hsq & Hlen & _) & Hcells)]; [congruence|].
  rewrite Hgen in Hret. injection Hret as <-.
  split; [done|]. split; [done|]. intros r c Hin.
  destruct (Hcells (λ ch, (65 ≤ nat_of_ascii ch ≤ 90)%nat) Hwords r c Hin)
    as (ch & Hch & Hup).
  exists (str1 ch). split; [done|]. exists ch. split; [done|].
  by destruct Hup.
Qed.


End Claims.


(** ** The claims on the sample runtime *)

Lemma generate_places_every_word_witness :
  SampleRuntime.generate ["cat"; "dog"]%string 3 false 1
    = Returned [["C"; "G"; "D"]; ["A"; "O"; "E"]; ["T"; "D"; "F"]]%string ∧
  ∀ w, w ∈ ["cat"; "dog"]%string → Sample.strip w ≠ EmptyString →
    ∃ r c dr dc,
      0 ≤ r < 3 ∧ 0 ≤ c < 3 ∧
      (dr, dc) ∈ [ (0, 1); (0, -1); (1, 0); (-1, 0) ] ∧
      ∀ (i : nat) ch,
        String.get i (remove_spaces (Sample.upper (Sample.strip w))) = Some ch →
        0 ≤ r + Z.of_nat i * dr < 3 ∧ 0 ≤ c + Z.of_nat i * dc < 3 ∧
        grid_get [["C"; "G"; "D"]; ["A"; "O"; "E"]; ["T"; "D"; "F"]]%string
          (r + Z.of_nat i * dr) (c + Z.of_nat i * dc) = Some (str1 ch).
Proof.
  assert (Hgen : SampleRuntime.generate ["cat"; "dog"]%string 3 false 1
    = Returned [["C"; "G"; "D"]; ["A"; "O"; "E"]; ["T"; "D"; "F"]]%string)
    by (vm_compute; reflexivity).
  split; [exact Hgen|].
  exact (@generate_places_every_word SampleRuntime.random SampleRuntime.str
           0%nat _ _ _ _ _ Hgen).
Defined.


Lemma generate_cells_uppercase_witness :
  SampleRuntime.generate ["cat"; "dog"]%string 3 false 1
    = Returned [["C"; "G"; "D"]; ["A"; "O"; "E"]; ["T"; "D"; "F"]]%string ∧
  Forall uppercase_word (@clean SampleRuntime.str ["cat"; "dog"]%string) ∧
  (square [["C"; "G"; "D"]; ["A"; "O"; "E"]; ["T"; "D"; "F"]]%string ∧
   len [["C"; "G"; "D"]; ["A"; "O"; "E"]; ["T"; "D"; "F"]]%string = Z.max 0 3 ∧
   ∀ r c,
     in_bounds (len [["C"; "G"; "D"]; ["A"; "O"; "E"]; ["T"; "D"; "F"]]%string)
       r c = true →
     ∃ cell,
       grid_get [["C"; "G"; "D"]; ["A"; "O"; "E"]; ["T"; "D"; "F"]]%string r c
         = Some cell ∧ uppercase_letter cell).
Proof.
  assert (Hgen : SampleRuntime.generate ["cat"; "dog"]%string 3 false 1
    = Returned [["C"; "G"; "D"]; ["A"; "O"; "E"]; ["T"; "D"; "F"]]%string)
    by (vm_compute; reflexivity).
  assert (Hwords : Forall uppercase_word
                     (@clean SampleRuntime.str ["cat"; "dog"]%string)).
  { change (Forall uppercase_word ["CAT"; "DOG"]%string).
    repeat (apply List.Forall_cons); [..|apply List.Forall_nil];
      intros i ch Hget;
      do 3 (destruct i as [|i]; [injection Hget as <-; vm_compute; lia|]);
      discriminate. }
  split; [exact Hgen|]. split; [exact Hwords|].
  exact (@generate_cells_uppercase SampleRuntime.random SampleRuntime.str
           0%nat _ _ _ _ _ Hgen Hwords).
Defined.


(** C8 as stated fails: a word may hold a character that is not a letter.
    [generate_wordsearch(["1"], size=1)] returns the grid [[["1"]]]. *)
Lemma generate_digit_counterexample :
  ¬ (∀ g : grid,
       SampleRuntime.generate ["1"]%string 1 false 0 = Returned g →
       ∀ r c, in_bounds (len g) r c = true →
         ∃ cell, grid_get g r c = Some cell ∧ uppercase_letter cell).
Proof.
  intros Hclaim.
  assert (Hgen : SampleRuntime.generate ["1"]%string 1 false 0
                 = Returned [["1"]]%string) by (vm_compute; reflexivity).
  destruct (Hclaim _ Hgen 0 0 eq_refl) as (cell & Hcell & ch & Hch & Hup).
  vm_compute in Hcell. injection Hcell as <-. injection Hch as <-.
  vm_compute in Hup. lia.
Qed.



(** * Further properties of the program *)

(** ** [make_empty_grid], [can_place_word] and [place_word] *)

(** A cell written by the loop of [place_word]: it is listed once, it was
    empty, it lies on the span and holds the letter of its index. *)
Lemma place_loop_written_cells g word i r c dr dc g' changed :
  square g → spans g word i r c dr dc →
  place_loop g word i r c dr dc = Some (g', changed) →
  NoDup changed ∧ (length changed ≤ String.length word)%nat ∧
  ∀ r' c', (r', c') ∈ changed →
    in_bounds (len g) r' c' = true ∧ grid_get g r' c' = Some EMPTY ∧
    ∃ (k : nat) ch, String.get k word = Some ch ∧
      r' = r + (i + Z.of_nat k) * dr ∧ c' = c + (i + Z.of_nat k) * dc ∧
      grid_get g' r' c' = Some (str1 ch).
Proof.
  revert g i changed. induction word as [|ch word IH];
    intros g i changed Hsq Hspan Hplace.
  { simpl in Hplace. injection Hplace as <- <-.
    split; [constructor|]. split; [done|]. by intros r' c' ?%elem_of_nil. }
  apply along_cons in Hspan as [Hin Hspan]. rewrite Z.add_0_r in Hin.
  assert (Hspan' : ∀ g1, len g1 = len g → spans g1 word (i + 1) r c dr dc).
  { intros g1 Hlen1. revert Hspan. apply along_impl. intros k _ _.
    rewrite Hlen1. by replace (i + 1 + k) with (i + (k + 1)) by lia. }
  assert (Hshift : ∀ (k : nat), i + 1 + Z.of_nat k = i + Z.of_nat (S k)) by lia.
  simpl in Hplace. destruct (grid_get_is_Some g _ _ Hsq Hin) as [cell Hcell].
  rewrite Hcell in Hplace. simpl in Hplace.
  destruct (String.eqb_spec cell EMPTY) as [Heq|Hne].
  - subst cell.
    destruct (grid_set_spec g _ _ (str1 ch) Hsq Hin)
      as (g1 & Hset & Hsq1 & Hlen1 & Hget1 & Hframe1).
    rewrite Hset in Hplace. simpl in Hplace.
    destruct (place_loop g1 word (i + 1) r c dr dc) as [[g2 changed']|] eqn:Hpl;
      [|done]. simpl in Hplace. injection Hplace as <- <-.
    destruct (IH g1 (i + 1) changed' Hsq1 (Hspan' g1 Hlen1) Hpl)
      as (Hnodup & Hlength & Hcells).
    destruct (place_loop_extends _ _ _ _ _ _ _ _ _ Hsq1 (Hspan' g1 Hlen1) Hpl)
      as (_ & _ & Hkeep1).
    assert (Hfresh : (r + i * dr, c + i * dc) ∉ changed').
    { intros Hmem. destruct (Hcells _ _ Hmem) as (_ & Hempty & _).
      apply (str1_not_EMPTY ch). congruence. }
    split; [by constructor|]. split; [simpl; lia|].
    intros r' c' [Heq|Hmem]%elem_of_cons.
    + injection Heq as -> ->. split; [done|]. split; [done|].
      exists 0%nat, ch. split; [done|]. rewrite Z.add_0_r.
      split; [done|]. split; [done|].
      apply Hkeep1; [by rewrite Hlen1|done|apply str1_not_EMPTY].
    + destruct (Hcells _ _ Hmem) as (Hin' & Hempty & k & ch' & Hget & Hr & Hc & Hletter).
      rewrite Hlen1 in Hin'. split; [done|]. split.
      * rewrite <- Hempty. symmetry. apply Hframe1; [done|].
        intros Heq. apply Hfresh. by rewrite <- Heq.
      * exists (S k), ch'. rewrite <- Hshift. done.
  - destruct (IH g (i + 1) changed Hsq (Hspan' g eq_refl) Hplace)
      as (Hnodup & Hlength & Hcells).
    split; [done|]. split; [simpl; lia|].
    intros r' c' Hmem.
    destruct (Hcells _ _ Hmem) as (Hin' & Hempty & k & ch' & Hget & Hr & Hc & Hletter).
    split; [done|]. split; [done|].
    exists (S k), ch'. rewrite <- Hshift. done.
Qed.

(** Where the word can already be read, the loop of [place_word] changes
    nothing. *)
Lemma place_loop_noop g word i r c dr dc :
  along word (λ k, cell_spells g r c dr dc (i + k)) →
  place_loop g word i r c dr dc = Some (g, []).
Proof.
  revert i. induction word as [|ch word IH]; intros i Hw; [done|].
  apply along_cons in Hw as [[_ Hcell] Hw]. rewrite Z.add_0_r in Hcell.
  assert (Hne : String.eqb (str1 ch) EMPTY = false)
    by apply String.eqb_neq, str1_not_EMPTY.
  cbn [place_loop]. rewrite Hcell. cbn [mbind option_bind]. rewrite Hne.
  apply IH. revert Hw. apply along_impl. intros k ch' _.
  by replace (i + (k + 1)) with (i + 1 + k) by lia.
Qed.

Lemma spans_of_can_place g word r c dr dc :
  square g → can_place_word g word r c dr dc = Some true →
  spans g word 0 r c dr dc.
Proof.
  intros Hsq Hcan. apply can_place_word_true in Hcan; [|done].
  apply accepts_spans. revert Hcan. apply along_impl.
  intros k ch _. by rewrite Z.add_0_l.
Qed.

(** X1. For every integer [size], [make_empty_grid(size)] is a square grid
    of [max(0, size)] rows whose cells all hold [EMPTY]; for [size <= 0] it
    is the empty list. *)
Theorem make_empty_grid_shape size :
  square (make_empty_grid size) ∧
  len (make_empty_grid size) = Z.max 0 size ∧
  (∀ r c, in_bounds (len (make_empty_grid size)) r c = true →
     grid_get (make_empty_grid size) r c = Some EMPTY) ∧
  (size ≤ 0 → make_empty_grid size = []).
Proof.
  split; [apply square_make_empty_grid|].
  split; [apply len_make_empty_grid|]. split.
  - intros r c Hin. apply grid_get_make_empty_grid.
    by rewrite <- len_make_empty_grid.
  - intros Hsize. unfold make_empty_grid.
    by replace (Z.to_nat size) with 0%nat by lia.
Qed.

Lemma place_word_spec (g : grid) word r c dr dc :
  square g → (dr, dc) ≠ (0, 0) →
  can_place_word g word r c dr dc = Some true →
  ∃ g' changed,
    place_word g word r c dr dc = Some (g', changed) ∧
    square g' ∧ len g' = len g ∧
    written g' word r c dr dc ∧
    ∀ r' c' cell, in_bounds (len g) r' c' = true →
      grid_get g r' c' = Some cell → cell ≠ EMPTY →
      grid_get g' r' c' = Some cell.
Proof.
  intros Hsq Hdir Hcan.
  pose proof (spans_of_can_place _ _ _ _ _ _ Hsq Hcan) as Hspan.
  destruct (place_loop_spec g word 0 r c dr dc Hsq Hspan)
    as (g' & changed & Hplace & Hsq' & Hlen' & _).
  exists g', changed. split; [done|]. split; [done|]. split; [done|]. split.
  - apply can_place_word_true in Hcan; [|done].
    assert (Hw : along word (λ k, cell_spells g' r c dr dc (0 + k))).
    { apply (place_loop_written g word 0 r c dr dc g' changed); [done..| |done].
      revert Hcan. apply along_impl. intros k ch _. by rewrite Z.add_0_l. }
    revert Hw. apply along_impl. intros k ch _. by rewrite Z.add_0_l.
  - by destruct (place_loop_extends _ _ _ _ _ _ _ _ _ Hsq Hspan Hplace)
      as (_ & _ & Hkeep).
Qed.

(** X2. Where [can_place_word] returned [True] for a non-zero direction,
    [place_word] returns, the word can then be read in the grid from
    [(r, c)] along [(dr, dc)], and every cell that held a letter before
    still holds it. *)
Theorem place_word_writes (g : grid) word r c dr dc :
  square g → (dr, dc) ≠ (0, 0) →
  can_place_word g word r c dr dc = Some true →
  ∃ g' changed,
    place_word g word r c dr dc = Some (g', changed) ∧
    square g' ∧ len g' = len g ∧
    written g' word r c dr dc ∧
    ∀ r' c' cell, in_bounds (len g) r' c' = true →
      grid_get g r' c' = Some cell → cell ≠ EMPTY →
      grid_get g' r' c' = Some cell.
Proof. apply place_word_spec. Qed.

(** X3. When every cell of the span lies in the grid, also where the word
    conflicts with letters already there, [place_word] returns a change
    list without duplicates, of at most [len(word)] coordinates.  A
    coordinate is listed exactly when it is a cell of the grid that was
    [EMPTY] before the call and is not afterwards; such a cell lies on the
    span and holds the letter of an index that falls on it.  Every cell
    that is not listed is as it was, so a cell that held a letter keeps
    it: no letter is ever overwritten. *)
Theorem place_word_changed_exact (g : grid) word r c dr dc :
  square g →
  (∀ (i : nat) ch, String.get i word = Some ch →
     0 ≤ r + Z.of_nat i * dr < len g ∧ 0 ≤ c + Z.of_nat i * dc < len g) →
  ∃ g' changed,
    place_word g word r c dr dc = Some (g', changed) ∧
    NoDup changed ∧ (length changed ≤ String.length word)%nat ∧
    (∀ r' c', (r', c') ∈ changed ↔
       (0 ≤ r' < len g ∧ 0 ≤ c' < len g) ∧
       grid_get g r' c' = Some EMPTY ∧ grid_get g' r' c' ≠ Some EMPTY) ∧
    (∀ r' c', (r', c') ∈ changed →
       ∃ (i : nat) ch, String.get i word = Some ch ∧
         r' = r + Z.of_nat i * dr ∧ c' = c + Z.of_nat i * dc ∧
         grid_get g' r' c' = Some (str1 ch)) ∧
    (∀ r' c', 0 ≤ r' < len g → 0 ≤ c' < len g → (r', c') ∉ changed →
       grid_get g' r' c' = grid_get g r' c') ∧
    (∀ r' c' cell, 0 ≤ r' < len g → 0 ≤ c' < len g →
       grid_get g r' c' = Some cell → cell ≠ EMPTY →
       grid_get g' r' c' = Some cell).
Proof.
  intros Hsq Hin.
  assert (Hspan : spans g word 0 r c dr dc).
  { intros i ch Hget. rewrite Z.add_0_l. apply in_bounds_spec. by eapply Hin. }
  destruct (place_loop_spec g word 0 r c dr dc Hsq Hspan)
    as (g' & changed & Hplace & Hsq' & Hlen' & _ & Hframe).
  destruct (place_loop_written_cells _ _ _ _ _ _ _ _ _ Hsq Hspan Hplace)
    as (Hnodup & Hlength & Hcells).
  destruct (place_loop_extends _ _ _ _ _ _ _ _ _ Hsq Hspan Hplace)
    as (_ & _ & Hkeep).
  exists g', changed. split; [done|]. split; [done|]. split; [done|].
  split; [|split; [|split]].
  - intros r' c'. split.
    + intros Hmem.
      destruct (Hcells _ _ Hmem) as (Hin' & Hempty & k & ch & _ & _ & _ & Hch).
      split; [by apply in_bounds_spec|]. split; [done|]. rewrite Hch.
      intros Heq. apply (str1_not_EMPTY ch). congruence.
    + intros (Hin' & Hempty & Hfull).
      destruct (decide ((r', c') ∈ changed)) as [|Hnot]; [done|].
      destruct Hfull. rewrite Hframe; [done| |done]. by apply in_bounds_spec.
  - intros r' c' Hmem.
    destruct (Hcells _ _ Hmem) as (_ & _ & k & ch & Hget & Hr & Hc & Hch).
    exists k, ch. by rewrite Z.add_0_l in Hr, Hc.
  - intros r' c' Hr Hc Hnot. apply Hframe; [|done]. by apply in_bounds_spec.
  - intros r' c' cell Hr Hc Hcell Hne. apply Hkeep; [|done|done].
    by apply in_bounds_spec.
Qed.

(** X4. After a placement, the same placement is still possible and
    placing the word again changes nothing: the second change list is
    empty. *)
Theorem place_word_twice (g : grid) word r c dr dc g' changed :
  square g → (dr, dc) ≠ (0, 0) →
  can_place_word g word r c dr dc = Some true →
  place_word g word r c dr dc = Some (g', changed) →
  can_place_word g' word r c dr dc = Some true ∧
  place_word g' word r c dr dc = Some (g', []).
Proof.
  intros Hsq Hdir Hcan Hplace.
  destruct (place_word_spec g word r c dr dc Hsq Hdir Hcan)
    as (g1 & changed1 & Hplace1 & Hsq1 & _ & Hw & _).
  rewrite Hplace in Hplace1. injection Hplace1 as <- <-. split.
  - apply can_place_word_true; [done|].
    apply (written_accepts g' g'); [done|by apply extends_refl|done].
  - apply place_loop_noop. revert Hw. apply along_impl.
    intros k ch _. by rewrite Z.add_0_l.
Qed.

(** X5. Writing letters into the grid never makes a new placement
    possible: a placement that [can_place_word] accepts on a grid [h] that
    keeps all letters of [g] is accepted on [g] as well. *)
Theorem can_place_word_before (g h : grid) word r c dr dc :
  square g → extends g h →
  can_place_word h word r c dr dc = Some true →
  can_place_word g word r c dr dc = Some true.
Proof.
  intros Hsq Hext Hcan. pose proof Hext as (Hsqh & Hlen & Hkeep).
  apply can_place_word_true in Hcan; [|done].
  apply can_place_word_true; [done|].
  revert Hcan. apply along_impl. intros k ch _ (Hin & cellh & Hcellh & Hor).
  rewrite Hlen in Hin. split; [done|].
  destruct (grid_get_is_Some g _ _ Hsq Hin) as [cell Hcell].
  exists cell. split; [done|].
  destruct (decide (cell = EMPTY)) as [|Hne]; [by left|right].
  rewrite (Hkeep _ _ _ Hin Hcell Hne) in Hcellh. injection Hcellh as <-.
  by destruct Hor.
Qed.

Lemma place_word_writes_witness :
  square [["A"; EMPTY]; [EMPTY; EMPTY]]%string ∧
  (0, 1) ≠ (0, 0) ∧
  can_place_word [["A"; EMPTY]; [EMPTY; EMPTY]]%string "AB" 0 0 0 1 = Some true ∧
  ∃ g' changed,
    place_word [["A"; EMPTY]; [EMPTY; EMPTY]]%string "AB" 0 0 0 1
      = Some (g', changed) ∧
    square g' ∧ len g' = 2 ∧
    written g' "AB" 0 0 0 1 ∧
    ∀ r' c' cell, in_bounds 2 r' c' = true →
      grid_get [["A"; EMPTY]; [EMPTY; EMPTY]]%string r' c' = Some cell →
      cell ≠ EMPTY → grid_get g' r' c' = Some cell.
Proof.
  assert (Hsq : square [["A"; EMPTY]; [EMPTY; EMPTY]]%string)
    by (repeat constructor).
  assert (Hdir : (0, 1) ≠ (0, 0)) by discriminate.
  assert (Hcan : can_place_word [["A"; EMPTY]; [EMPTY; EMPTY]]%string
                   "AB" 0 0 0 1 = Some true) by reflexivity.
  split; [exact Hsq|]. split; [exact Hdir|]. split; [exact Hcan|].
  exact (place_word_writes _ _ _ _ _ _ Hsq Hdir Hcan).
Defined.

Lemma place_word_changed_exact_witness :
  square [["A"; EMPTY]; [EMPTY; EMPTY]]%string ∧
  (∀ (i : nat) ch, String.get i "XB"%string = Some ch →
     0 ≤ 0 + Z.of_nat i * 0 < 2 ∧ 0 ≤ 0 + Z.of_nat i * 1 < 2) ∧
  ∃ g' changed,
    place_word [["A"; EMPTY]; [EMPTY; EMPTY]]%string "XB" 0 0 0 1
      = Some (g', changed) ∧
    NoDup changed ∧ (length changed ≤ String.length "XB")%nat ∧
    (∀ r' c', (r', c') ∈ changed ↔
       (0 ≤ r' < 2 ∧ 0 ≤ c' < 2) ∧
       grid_get [["A"; EMPTY]; [EMPTY; EMPTY]]%string r' c' = Some EMPTY ∧
       grid_get g' r' c' ≠ Some EMPTY) ∧
    (∀ r' c', (r', c') ∈ changed →
       ∃ (i : nat) ch, String.get i "XB"%string = Some ch ∧
         r' = 0 + Z.of_nat i * 0 ∧ c' = 0 + Z.of_nat i * 1 ∧
         grid_get g' r' c' = Some (str1 ch)) ∧
    (∀ r' c', 0 ≤ r' < 2 → 0 ≤ c' < 2 → (r', c') ∉ changed →
       grid_get g' r' c'
       = grid_get [["A"; EMPTY]; [EMPTY; EMPTY]]%string r' c') ∧
    (∀ r' c' cell, 0 ≤ r' < 2 → 0 ≤ c' < 2 →
       grid_get [["A"; EMPTY]; [EMPTY; EMPTY]]%string r' c' = Some cell →
       cell ≠ EMPTY → grid_get g' r' c' = Some cell).
Proof.
  assert (Hsq : square [["A"; EMPTY]; [EMPTY; EMPTY]]%string)
    by (repeat constructor).
  assert (Hin : ∀ (i : nat) ch, String.get i "XB"%string = Some ch →
     0 ≤ 0 + Z.of_nat i * 0 < len [["A"; EMPTY]; [EMPTY; EMPTY]]%string ∧
     0 ≤ 0 + Z.of_nat i * 1 < len [["A"; EMPTY]; [EMPTY; EMPTY]]%string).
  { intros i ch Hget. unfold len. simpl.
    do 2 (destruct i as [|i]; [lia|]). discriminate. }
  split; [exact Hsq|]. split; [exact Hin|].
  exact (place_word_changed_exact _ "XB" 0 0 0 1 Hsq Hin).
Defined.

Lemma place_word_twice_witness :
  square [["A"; EMPTY]; [EMPTY; EMPTY]]%string ∧
  (0, 1) ≠ (0, 0) ∧
  can_place_word [["A"; EMPTY]; [EMPTY; EMPTY]]%string "AB" 0 0 0 1 = Some true ∧
  place_word [["A"; EMPTY]; [EMPTY; EMPTY]]%string "AB" 0 0 0 1
    = Some ([["A"; "B"]; [EMPTY; EMPTY]]%string, [(0, 1)]) ∧
  can_place_word [["A"; "B"]; [EMPTY; EMPTY]]%string "AB" 0 0 0 1 = Some true ∧
  place_word [["A"; "B"]; [EMPTY; EMPTY]]%string "AB" 0 0 0 1
    = Some ([["A"; "B"]; [EMPTY; EMPTY]]%string, []).
Proof.
  assert (Hsq : square [["A"; EMPTY]; [EMPTY; EMPTY]]%string)
    by (repeat constructor).
  assert (Hdir : (0, 1) ≠ (0, 0)) by discriminate.
  assert (Hcan : can_place_word [["A"; EMPTY]; [EMPTY; EMPTY]]%string
                   "AB" 0 0 0 1 = Some true) by reflexivity.
  assert (Hplace : place_word [["A"; EMPTY]; [EMPTY; EMPTY]]%string "AB" 0 0 0 1
    = Some ([["A"; "B"]; [EMPTY; EMPTY]]%string, [(0, 1)])) by reflexivity.
  split; [exact Hsq|]. split; [exact Hdir|]. split; [exact Hcan|].
  split; [exact Hplace|].
  exact (place_word_twice _ _ _ _ _ _ _ _ Hsq Hdir Hcan Hplace).
Defined.

Lemma can_place_word_before_witness :
  square [["A"; EMPTY]; [EMPTY; EMPTY]]%string ∧
  extends [["A"; EMPTY]; [EMPTY; EMPTY]]%string
          [["A"; "B"]; [EMPTY; EMPTY]]%string ∧
  can_place_word [["A"; "B"]; [EMPTY; EMPTY]]%string "AB" 0 0 0 1 = Some true ∧
  can_place_word [["A"; EMPTY]; [EMPTY; EMPTY]]%string "AB" 0 0 0 1 = Some true.
Proof.
  assert (Hsq : square [["A"; EMPTY]; [EMPTY; EMPTY]]%string)
    by (repeat constructor).
  assert (Hext : extends [["A"; EMPTY]; [EMPTY; EMPTY]]%string
                         [["A"; "B"]; [EMPTY; EMPTY]]%string).
  { apply (place_loop_extends _ "AB" 0 0 0 0 1 _ [(0, 1)]);
      [exact Hsq| |reflexivity].
    intros i ch Hget.
    do 2 (destruct i as [|i]; [reflexivity|]). discriminate. }
  assert (Hcan : can_place_word [["A"; "B"]; [EMPTY; EMPTY]]%string
                   "AB" 0 0 0 1 = Some true) by reflexivity.
  split; [exact Hsq|]. split; [exact Hext|]. split; [exact Hcan|].
  exact (can_place_word_before _ _ _ _ _ _ _ Hsq Hext Hcan).
Defined.

(** ** [undo_changes] and the subscripts of Python; the search *)

Lemma index_is_Some (n : nat) (i : Z) :
  is_Some (PyList.index n i) ↔ - Z.of_nat n ≤ i < Z.of_nat n.
Proof.
  unfold PyList.index.
  destruct (Z.leb_spec 0 i), (Z.ltb_spec i (Z.of_nat n)),
    (Z.leb_spec (- Z.of_nat n) i), (Z.ltb_spec i 0); simpl;
    (split; [intros [? ?]; (done || lia)|intros ?; (by eexists) || lia]).
Qed.

Lemma index_from_end (n : nat) (i : Z) :
  - Z.of_nat n ≤ i < Z.of_nat n →
  PyList.index n i = Some (Z.to_nat (from_end (Z.of_nat n) i)).
Proof.
  intros Hi. unfold PyList.index, from_end.
  destruct (Z.leb_spec 0 i), (Z.ltb_spec i (Z.of_nat n)),
    (Z.leb_spec (- Z.of_nat n) i), (Z.ltb_spec i 0); simpl; (done || lia).
Qed.

Lemma from_end_in_range n i : - n ≤ i < n → 0 ≤ from_end n i < n.
Proof. unfold from_end. destruct (Z.ltb_spec i 0); lia. Qed.

(** [grid[r][c] = v] with subscripts counted from either end. *)
Lemma grid_set_from_end (g : grid) r c v :
  square g → - len g ≤ r < len g → - len g ≤ c < len g →
  grid_set g r c v = grid_set g (from_end (len g) r) (from_end (len g) c) v.
Proof.
  intros Hsq Hr Hc. unfold len in *.
  pose proof (from_end_in_range _ _ Hr) as Hr'.
  pose proof (from_end_in_range _ _ Hc) as Hc'.
  unfold grid_set, PyList.getitem, PyList.setitem.
  rewrite (index_from_end _ r Hr), (index_in_range _ _ Hr'). simpl.
  destruct (g !! Z.to_nat (from_end (Z.of_nat (length g)) r)) as [row|] eqn:Hrow;
    [|done]. simpl.
  rewrite (square_row _ _ _ Hsq Hrow).
  by rewrite (index_from_end _ c Hc), (index_in_range _ _ Hc').
Qed.

Lemma grid_set_is_Some (g : grid) r c v :
  square g →
  is_Some (grid_set g r c v) ↔ - len g ≤ r < len g ∧ - len g ≤ c < len g.
Proof.
  intros Hsq. split.
  - unfold grid_set, PyList.getitem, PyList.setitem, len.
    destruct (PyList.index (length g) r) as [n|] eqn:Hn; simpl;
      [|by intros [? ?]].
    assert (Hr : is_Some (PyList.index (length g) r)) by by rewrite Hn.
    apply index_is_Some in Hr.
    destruct (g !! n) as [row|] eqn:Hrow; simpl; [|by intros [? ?]].
    rewrite (square_row _ _ _ Hsq Hrow).
    destruct (PyList.index (length g) c) as [m|] eqn:Hm; simpl;
      [|by intros [? ?]].
    assert (Hc : is_Some (PyList.index (length g) c)) by by rewrite Hm.
    apply index_is_Some in Hc. done.
  - intros [Hr Hc]. rewrite grid_set_from_end by done.
    destruct (grid_set_spec g (from_end (len g) r) (from_end (len g) c) v Hsq)
      as (g' & Hset & _).
    { apply in_bounds_spec. split; by apply from_end_in_range. }
    by rewrite Hset.
Qed.

Lemma undo_changes_from_end (g : grid) changed :
  square g →
  Forall (λ rc, - len g ≤ rc.1 < len g ∧ - len g ≤ rc.2 < len g) changed →
  undo_changes g changed =
  undo_changes g
    ((λ rc, (from_end (len g) rc.1, from_end (len g) rc.2)) <$> changed).
Proof.
  revert g. induction changed as [|[r c] changed IH]; intros g Hsq Hall; [done|].
  apply Forall_cons in Hall as [[Hr Hc] Hall]. simpl in Hr, Hc.
  cbn [undo_changes fmap list_fmap fst snd].
  rewrite grid_set_from_end by done.
  destruct (grid_set_spec g (from_end (len g) r) (from_end (len g) c) EMPTY Hsq)
    as (g' & Hset & Hsq' & Hlen' & _).
  { apply in_bounds_spec. split; by apply from_end_in_range. }
  rewrite Hset. cbn [mbind option_bind]. rewrite <- Hlen'. apply IH; [done|].
  by rewrite Hlen'.
Qed.

Lemma undo_changes_is_Some (g : grid) changed :
  square g →
  is_Some (undo_changes g changed) ↔
  Forall (λ rc, - len g ≤ rc.1 < len g ∧ - len g ≤ rc.2 < len g) changed.
Proof.
  revert g. induction changed as [|[r c] changed IH]; intros g Hsq.
  { split; [by constructor|by eexists]. }
  cbn [undo_changes]. rewrite Forall_cons. cbn [fst snd].
  rewrite <- (grid_set_is_Some g r c EMPTY Hsq). split.
  - destruct (grid_set g r c EMPTY) as [g'|] eqn:Hset; [|by intros [? ?]].
    cbn [mbind option_bind]. intros Hrest. split; [done|].
    assert (Hrange : is_Some (grid_set g r c EMPTY)) by by rewrite Hset.
    apply grid_set_is_Some in Hrange as [Hr Hc]; [|done].
    rewrite grid_set_from_end in Hset by done.
    destruct (grid_set_spec g (from_end (len g) r) (from_end (len g) c) EMPTY Hsq)
      as (g'' & Hset' & Hsq' & Hlen' & _).
    { apply in_bounds_spec. split; by apply from_end_in_range. }
    rewrite Hset in Hset'. injection Hset' as <-.
    rewrite <- Hlen'. by apply IH.
  - intros [[g' Hset] Hrest]. rewrite Hset. cbn [mbind option_bind].
    assert (Hrange : is_Some (grid_set g r c EMPTY)) by by rewrite Hset.
    apply grid_set_is_Some in Hrange as [Hr Hc]; [|done].
    rewrite grid_set_from_end in Hset by done.
    destruct (grid_set_spec g (from_end (len g) r) (from_end (len g) c) EMPTY Hsq)
      as (g'' & Hset' & Hsq' & Hlen' & _).
    { apply in_bounds_spec. split; by apply from_end_in_range. }
    rewrite Hset in Hset'. injection Hset' as <-.
    apply IH; [done|]. by rewrite Hlen'.
Qed.

(** X9. On an N×N grid [undo_changes] returns exactly when every listed
    coordinate lies in [-N, N) in both components; otherwise the subscript
    raises [IndexError]. *)
Theorem undo_changes_returns_iff (g : grid) changed :
  square g →
  (is_Some (undo_changes g changed) ↔
   Forall (λ rc, - len g ≤ rc.1 < len g ∧ - len g ≤ rc.2 < len g) changed).
Proof. apply undo_changes_is_Some. Qed.

Lemma undo_changes_returns_iff_witness :
  square [["A"; "B"]; ["C"; "D"]]%string ∧
  (is_Some (undo_changes [["A"; "B"]; ["C"; "D"]]%string [(0, 2)]) ↔
   Forall (λ rc, - 2 ≤ rc.1 < 2 ∧ - 2 ≤ rc.2 < 2) [(0, 2)]).
Proof.
  assert (Hsq : square [["A"; "B"]; ["C"; "D"]]%string) by (repeat constructor).
  split; [exact Hsq|].
  exact (undo_changes_returns_iff [["A"; "B"]; ["C"; "D"]]%string [(0, 2)] Hsq).
Defined.

(** X10. A negative coordinate in the change list counts from the end of
    the grid: [undo_changes] resets the cell [(r + N, c + N)] for it. *)
Theorem undo_changes_negative_subscripts (g : grid) changed :
  square g →
  Forall (λ rc, - len g ≤ rc.1 < len g ∧ - len g ≤ rc.2 < len g) changed →
  undo_changes g changed =
  undo_changes g
    ((λ rc, (from_end (len g) rc.1, from_end (len g) rc.2)) <$> changed).
Proof. apply undo_changes_from_end. Qed.

Lemma undo_changes_negative_subscripts_witness :
  square [["A"; "B"]; ["C"; "D"]]%string ∧
  Forall (λ rc, - 2 ≤ rc.1 < 2 ∧ - 2 ≤ rc.2 < 2) [(-1, 0); (1, -2)] ∧
  undo_changes [["A"; "B"]; ["C"; "D"]]%string [(-1, 0); (1, -2)] =
  undo_changes [["A"; "B"]; ["C"; "D"]]%string
    ((λ rc, (from_end 2 rc.1, from_end 2 rc.2)) <$> [(-1, 0); (1, -2)]).
Proof.
  assert (Hsq : square [["A"; "B"]; ["C"; "D"]]%string) by (repeat constructor).
  assert (Hall : Forall (λ rc, - len [["A"; "B"]; ["C"; "D"]]%string ≤ rc.1
                                 < len [["A"; "B"]; ["C"; "D"]]%string ∧
                               - len [["A"; "B"]; ["C"; "D"]]%string ≤ rc.2
                                 < len [["A"; "B"]; ["C"; "D"]]%string)
                        [(-1, 0); (1, -2)]).
  { repeat constructor; simpl; unfold len; simpl; lia. }
  split; [exact Hsq|]. split; [exact Hall|].
  exact (undo_changes_negative_subscripts _ _ Hsq Hall).
Defined.

(** X11. Called on an N×N grid with [idx] at most [len(words)],
    [backtrack_place_words] returns [True] exactly when the words from
    [idx] on can all be placed on top of what the grid holds; the grid then
    keeps every letter it held and shows each of these words. *)
Theorem backtrack_true_iff_completable `{RandomSource}
    (g : grid) words idx directions rng :
  square g → (idx ≤ length words)%nat →
  ∃ ok g' rng',
    backtrack_place_words g words idx directions rng = Some (ok, g', rng') ∧
    (ok = true ↔ completable directions (drop idx words) g) ∧
    (ok = true →
       extends g g' ∧ Forall (appears g' directions) (drop idx words)).
Proof.
  intros Hsq Hidx. unfold backtrack_place_words.
  destruct (Nat.leb_spec idx (length words)) as [_|Hgt]; [|lia].
  destruct (backtrack_from_spec directions (drop idx words) g rng Hsq)
    as ([[ok g'] rng'] & Hres & _ & _ & Hfail & Hok). simpl in Hfail, Hok.
  exists ok, g', rng'. split; [done|]. split.
  - split.
    + intros Htrue. destruct (Hok Htrue) as (Hext & Hall & _). by exists g'.
    + intros Hcompl. destruct ok; [done|]. by destruct (Hfail eq_refl).
  - intros Htrue. by destruct (Hok Htrue) as (Hext & Hall & _).
Qed.

Lemma backtrack_true_iff_completable_witness :
  square [["A"; EMPTY]; [EMPTY; EMPTY]]%string ∧
  (1 ≤ length ["ZZ"; "AB"; "BC"]%string)%nat ∧
  ∃ ok g' rng',
    @backtrack_place_words SampleRuntime.random
      [["A"; EMPTY]; [EMPTY; EMPTY]]%string ["ZZ"; "AB"; "BC"]%string 1
      DIRECTIONS_8 0%nat = Some (ok, g', rng') ∧
    (ok = true ↔
     completable DIRECTIONS_8 (drop 1 ["ZZ"; "AB"; "BC"]%string)
       [["A"; EMPTY]; [EMPTY; EMPTY]]%string) ∧
    (ok = true →
       extends [["A"; EMPTY]; [EMPTY; EMPTY]]%string g' ∧
       Forall (appears g' DIRECTIONS_8) (drop 1 ["ZZ"; "AB"; "BC"]%string)).
Proof.
  assert (Hsq : square [["A"; EMPTY]; [EMPTY; EMPTY]]%string)
    by (repeat constructor).
  assert (Hidx : (1 ≤ length ["ZZ"; "AB"; "BC"]%string)%nat) by (simpl; lia).
  split; [exact Hsq|]. split; [exact Hidx|].
  exact (@backtrack_true_iff_completable SampleRuntime.random _ _ 1%nat
           DIRECTIONS_8 0%nat Hsq Hidx).
Defined.

(** ** [fill_empty_with_random_letters] *)

Section FillMore.
Context `{RandomSource}.
Local Opaque ascii_uppercase.

(** On cells that hold a letter the loops of the fill pass over the grid
    without a call of [rng.choice]. *)
Lemma fill_row_noop g rng r cols :
  (∀ c, c ∈ cols → ∃ cell, grid_get g r c = Some cell ∧ cell ≠ EMPTY) →
  fill_row g rng r cols = Some (g, rng).
Proof.
  induction cols as [|c cols IH]; intros Hfull; [done|].
  destruct (Hfull c) as (cell & Hcell & Hne); [by left|].
  cbn [fill_row]. rewrite Hcell. cbn [mbind option_bind].
  apply String.eqb_neq in Hne. rewrite Hne.
  apply IH. intros c' Hc'. apply Hfull. by right.
Qed.

Lemma fill_rows_noop g rng rows :
  (∀ r c, r ∈ rows → c ∈ range (len g) →
     ∃ cell, grid_get g r c = Some cell ∧ cell ≠ EMPTY) →
  fill_rows g rng rows = Some (g, rng).
Proof.
  induction rows as [|r rows IH]; intros Hfull; [done|].
  cbn [fill_rows]. rewrite fill_row_noop.
  - cbn [mbind option_bind]. apply IH. intros r' c Hr'. apply Hfull. by right.
  - intros c. apply Hfull. by left.
Qed.

Lemma fill_noop g rng :
  (∀ r c, in_bounds (len g) r c = true →
     ∃ cell, grid_get g r c = Some cell ∧ cell ≠ EMPTY) →
  fill_empty_with_random_letters g rng = Some (g, rng).
Proof.
  intros Hfull. apply fill_rows_noop.
  intros r c Hr%elem_of_range Hc%elem_of_range.
  apply Hfull. by apply in_bounds_spec.
Qed.

(** X6. On an N×N grid [fill_empty_with_random_letters] returns a grid of
    the same shape in which every cell that was [EMPTY] holds a letter
    [A]..[Z] and every other cell holds what it held. *)
Theorem fill_keeps_letters (g : grid) rng :
  square g →
  ∃ g' rng',
    fill_empty_with_random_letters g rng = Some (g', rng') ∧
    square g' ∧ len g' = len g ∧
    ∀ r c, in_bounds (len g) r c = true →
      ∃ cell cell',
        grid_get g r c = Some cell ∧ grid_get g' r c = Some cell' ∧
        (cell = EMPTY → uppercase_letter cell') ∧
        (cell ≠ EMPTY → cell' = cell).
Proof.
  intros Hsq.
  destruct (fill_empty_spec g rng Hsq)
    as (g' & rng' & Hfill & (Hsq' & Hlen' & Hcells) & Hdone).
  exists g', rng'. split; [done|]. split; [done|]. split; [done|].
  intros r c Hin. destruct (grid_get_is_Some g r c Hsq Hin) as [cell Hcell].
  destruct (Hcells r c Hin) as (cell' & Hcell' & [Hsame|[Hempty Hup]]).
  - exists cell, cell'. split; [done|]. split; [done|].
    assert (cell' = cell) as -> by congruence.
    split; [|done]. intros ->. by destruct (Hdone r c Hin).
  - exists cell, cell'. split; [done|]. split; [done|].
    split; [done|]. intros Hne. congruence.
Qed.

(** X7. On a grid without an [EMPTY] cell
    [fill_empty_with_random_letters] changes nothing and draws nothing
    from the generator. *)
Theorem fill_full_grid_unchanged (g : grid) rng :
  (∀ r c, in_bounds (len g) r c = true →
     ∃ cell, grid_get g r c = Some cell ∧ cell ≠ EMPTY) →
  fill_empty_with_random_letters g rng = Some (g, rng).
Proof. apply fill_noop. Qed.

(** X8. Filling is idempotent: a second call of
    [fill_empty_with_random_letters] on a filled grid returns that grid and
    leaves the generator as it found it. *)
Theorem fill_idempotent (g g1 : grid) rng rng1 rng2 :
  square g →
  fill_empty_with_random_letters g rng = Some (g1, rng1) →
  fill_empty_with_random_letters g1 rng2 = Some (g1, rng2).
Proof.
  intros Hsq Hfill.
  destruct (fill_empty_spec g rng Hsq)
    as (g' & rng' & Hfill' & (Hsq' & Hlen' & _) & Hdone).
  rewrite Hfill in Hfill'. injection Hfill' as <- <-.
  apply fill_noop. intros r c Hin.
  destruct (grid_get_is_Some g1 r c Hsq' Hin) as [cell Hcell].
  exists cell. split; [done|]. intros ->.
  rewrite Hlen' in Hin. by destruct (Hdone r c Hin).
Qed.

End FillMore.

Lemma fill_keeps_letters_witness :
  square [["A"; EMPTY]; [EMPTY; "B"]]%string ∧
  ∃ g' rng',
    @fill_empty_with_random_letters SampleRuntime.random
      [["A"; EMPTY]; [EMPTY; "B"]]%string 0%nat = Some (g', rng') ∧
    square g' ∧ len g' = 2 ∧
    ∀ r c, in_bounds 2 r c = true →
      ∃ cell cell',
        grid_get [["A"; EMPTY]; [EMPTY; "B"]]%string r c = Some cell ∧
        grid_get g' r c = Some cell' ∧
        (cell = EMPTY → uppercase_letter cell') ∧
        (cell ≠ EMPTY → cell' = cell).
Proof.
  assert (Hsq : square [["A"; EMPTY]; [EMPTY; "B"]]%string)
    by (repeat constructor).
  split; [exact Hsq|].
  exact (@fill_keeps_letters SampleRuntime.random _ 0%nat Hsq).
Defined.

Lemma fill_full_grid_unchanged_witness :
  (∀ r c, in_bounds (len [["A"; "B"]; ["C"; "D"]]%string) r c = true →
     ∃ cell, grid_get [["A"; "B"]; ["C"; "D"]]%string r c = Some cell ∧
             cell ≠ EMPTY) ∧
  @fill_empty_with_random_letters SampleRuntime.random
    [["A"; "B"]; ["C"; "D"]]%string 5%nat
    = Some ([["A"; "B"]; ["C"; "D"]]%string, 5%nat).
Proof.
  assert (Hfull : ∀ r c,
    in_bounds (len [["A"; "B"]; ["C"; "D"]]%string) r c = true →
    ∃ cell, grid_get [["A"; "B"]; ["C"; "D"]]%string r c = Some cell ∧
            cell ≠ EMPTY).
  { intros r c [Hr Hc]%in_bounds_spec. unfold len in Hr, Hc. simpl in Hr, Hc.
    assert (r = 0 ∨ r = 1) as [-> | ->] by lia;
      (assert (c = 0 ∨ c = 1) as [-> | ->] by lia);
      (eexists; split; [reflexivity|discriminate]). }
  split; [exact Hfull|].
  exact (@fill_full_grid_unchanged SampleRuntime.random _ 5%nat Hfull).
Defined.

Lemma fill_idempotent_witness :
  square [["A"; EMPTY]; [EMPTY; "B"]]%string ∧
  @fill_empty_with_random_letters SampleRuntime.random
    [["A"; EMPTY]; [EMPTY; "B"]]%string 0%nat
    = Some ([["A"; "A"]; ["B"; "B"]]%string, 2%nat) ∧
  @fill_empty_with_random_letters SampleRuntime.random
    [["A"; "A"]; ["B"; "B"]]%string 7%nat
    = Some ([["A"; "A"]; ["B"; "B"]]%string, 7%nat).
Proof.
  assert (Hsq : square [["A"; EMPTY]; [EMPTY; "B"]]%string)
    by (repeat constructor).
  assert (Hfill : @fill_empty_with_random_letters SampleRuntime.random
    [["A"; EMPTY]; [EMPTY; "B"]]%string 0%nat
    = Some ([["A"; "A"]; ["B"; "B"]]%string, 2%nat)) by (vm_compute; reflexivity).
  split; [exact Hsq|]. split; [exact Hfill|].
  exact (@fill_idempotent SampleRuntime.random _ _ 0%nat 2%nat 7%nat Hsq Hfill).
Defined.

(** ** The sorted word list *)

Lemma insert_by_len_sorted w l :
  StronglySorted longer_first l → StronglySorted longer_first (insert_by_len w l).
Proof.
  induction 1 as [|y rest Hsorted IH Hall]; simpl.
  { repeat constructor. }
  destruct (Nat.leb_spec (String.length y) (String.length w)) as [Hle|Hgt].
  - constructor; [by constructor|]. constructor; [done|].
    eapply Forall_impl; [exact Hall|]. unfold longer_first. intros z Hz. lia.
  - constructor; [done|]. rewrite insert_by_len_perm.
    constructor; [unfold longer_first; lia|done].
Qed.

Lemma sort_by_len_desc_sorted l : StronglySorted longer_first (sort_by_len_desc l).
Proof.
  induction l as [|w l IH]; simpl; [constructor|by apply insert_by_len_sorted].
Qed.

Lemma insert_by_len_stable (n : nat) w l :
  filter (λ x, String.length x = n) (insert_by_len w l) =
  filter (λ x, String.length x = n) (w :: l).
Proof.
  induction l as [|y rest IH]; simpl; [done|].
  destruct (Nat.leb_spec (String.length y) (String.length w)) as [Hle|Hgt]; [done|].
  rewrite (filter_cons _ y), IH, !(filter_cons _ w), (filter_cons _ y).
  repeat case_decide; (done || lia).
Qed.

Lemma sort_by_len_desc_stable (n : nat) l :
  filter (λ x, String.length x = n) (sort_by_len_desc l) =
  filter (λ x, String.length x = n) l.
Proof.
  induction l as [|w l IH]; simpl; [done|].
  rewrite insert_by_len_stable, !(filter_cons _ w), IH. done.
Qed.

(** X18. The list [generate_wordsearch] searches with is a permutation
    of the normalised non-blank words, sorted longest first, words of equal
    length in the order of the input (the sort is stable). *)
Theorem clean_sorted_stable `{StrMethods} words :
  clean words ≡ₚ normal <$> filter (λ w, strip w ≠ EmptyString) words ∧
  StronglySorted longer_first (clean words) ∧
  ∀ n : nat,
    filter (λ w, String.length w = n) (clean words) =
    filter (λ w, String.length w = n)
      (normal <$> filter (λ w, strip w ≠ EmptyString) words).
Proof.
  split; [apply sort_by_len_desc_perm|].
  split; [apply sort_by_len_desc_sorted|].
  intros n. apply sort_by_len_desc_stable.
Qed.

(** ** [print_grid]; larger grids *)

(** A line of [print_grid] over one-character cells: the characters stand
    at the even positions, separated by single spaces. *)
Lemma concat_cells_get (chs : list ascii) (c : nat) ch :
  chs !! c = Some ch →
  String.get (2 * c) (String.concat " " (str1 <$> chs)) = Some ch.
Proof.
  revert c. induction chs as [|x chs IH]; intros c Hc; [done|].
  destruct c as [|c].
  - injection Hc as ->. by destruct chs.
  - simpl in Hc. destruct chs as [|y chs]; [done|].
    replace (2 * S c)%nat with (S (S (2 * c))) by lia.
    change (String.concat " " (str1 <$> x :: y :: chs))
      with (String x (String " " (String.concat " " (str1 <$> y :: chs)))).
    cbn [String.get]. by apply IH.
Qed.

Lemma concat_cells_length (chs : list ascii) :
  String.length (String.concat " " (str1 <$> chs)) = (2 * length chs - 1)%nat.
Proof.
  induction chs as [|x chs IH]; [done|].
  destruct chs as [|y chs]; [done|].
  change (String.concat " " (str1 <$> x :: y :: chs))
    with (String x (String " " (String.concat " " (str1 <$> y :: chs)))).
  cbn [String.length]. rewrite IH. cbn [length]. lia.
Qed.

(** X19. [print_grid] writes one line per row; for a row of
    one-character cells the line has [2 * len(row) - 1] characters and the
    character of cell [c] stands at position [2 * c]. *)
Theorem print_grid_lines (g : grid) :
  length (print_grid g) = length g ∧
  ∀ (r : nat) (chs : list ascii),
    g !! r = Some (str1 <$> chs) →
    ∃ line, print_grid g !! r = Some line ∧
      String.length line = (2 * length chs - 1)%nat ∧
      ∀ (c : nat) ch, chs !! c = Some ch → String.get (2 * c) line = Some ch.
Proof.
  split; [apply length_fmap|]. intros r chs Hrow.
  exists (String.concat " " (str1 <$> chs)). split.
  - unfold print_grid. by rewrite list_lookup_fmap, Hrow.
  - split; [apply concat_cells_length|]. intros c ch. apply concat_cells_get.
Qed.

Lemma len_widen h : len (widen h) = len h + 1.
Proof.
  unfold len, widen. rewrite length_app, length_fmap. simpl. lia.
Qed.

Lemma square_widen h : square h → square (widen h).
Proof.
  intros Hsq. unfold square.
  assert (Hlen : length (widen h) = S (length h)).
  { unfold widen. rewrite length_app, length_fmap. simpl. lia. }
  rewrite Hlen. unfold widen. apply Forall_app. split.
  - apply Forall_fmap. eapply Forall_impl; [exact Hsq|].
    intros row Hrow. simpl. rewrite length_app, Hrow. simpl. lia.
  - repeat constructor. by rewrite length_replicate.
Qed.

Lemma grid_get_widen h r c :
  square h → in_bounds (len h) r c = true →
  grid_get (widen h) r c = grid_get h r c.
Proof.
  intros Hsq [Hr Hc]%in_bounds_spec. unfold len in Hr, Hc.
  pose proof (len_widen h) as Hlen. unfold len in Hlen.
  unfold grid_get. rewrite !getitem_in_range by lia.
  unfold widen. rewrite lookup_app_l by (rewrite length_fmap; lia).
  rewrite list_lookup_fmap.
  destruct (h !! Z.to_nat r) as [row|] eqn:Hrow; [|done]. simpl.
  pose proof (square_row _ _ _ Hsq Hrow) as Hrowlen.
  rewrite !getitem_in_range by (rewrite ?length_app; simpl; lia).
  apply lookup_app_l. lia.
Qed.

Lemma appears_widen h directions word :
  square h → appears h directions word → appears (widen h) directions word.
Proof.
  intros Hsq (r & c & dr & dc & Hin & Hdir & Hne & Hw).
  assert (Hmono : ∀ r c, in_bounds (len h) r c = true →
                         in_bounds (len (widen h)) r c = true).
  { intros r' c'. rewrite !in_bounds_spec, len_widen. lia. }
  exists r, c, dr, dc. split; [by apply Hmono|]. split; [done|]. split; [done|].
  revert Hw. apply along_impl. intros k ch _ [Hin' Hcell].
  split; [by apply Hmono|]. by rewrite grid_get_widen.
Qed.

Lemma arrangement_grow size size' directions words :
  size ≤ size' →
  (∃ h, arrangement size directions words h) →
  ∃ h, arrangement size' directions words h.
Proof.
  intros Hle [h Harr].
  assert (Hstep : ∀ k : nat, ∃ h', square h' ∧
            len h' = Z.max 0 size + Z.of_nat k ∧
            Forall (appears h' directions) words).
  { induction k as [|k (h' & Hsq & Hlen & Hall)].
    - exists h. destruct Harr as (Hsq & Hlen & Hall).
      split; [done|]. split; [lia|done].
    - exists (widen h'). split; [by apply square_widen|].
      split; [rewrite len_widen; lia|].
      eapply Forall_impl; [exact Hall|]. intros w. by apply appears_widen. }
  destruct (Hstep (Z.to_nat (Z.max 0 size' - Z.max 0 size)))
    as (h' & Hsq & Hlen & Hall).
  exists h'. split; [done|]. split; [lia|done].
Qed.

(** ** [generate_wordsearch]: when it succeeds *)

Lemma appears_directions g d1 d2 word :
  d1 ⊆ d2 → appears g d1 word → appears g d2 word.
Proof.
  intros Hsub (r & c & dr & dc & Hin & Hdir & Hne & Hw).
  exists r, c, dr, dc. split; [done|]. split; [by apply Hsub|done].
Qed.

Lemma arrangement_weaken size d1 d2 ws1 ws2 h :
  d1 ⊆ d2 → ws2 ⊆ ws1 →
  arrangement size d1 ws1 h → arrangement size d2 ws2 h.
Proof.
  intros Hd Hws (Hsq & Hlen & Hall). split; [done|]. split; [done|].
  rewrite Forall_forall in Hall. apply Forall_forall. intros w Hw.
  eapply appears_directions; [done|]. by apply Hall, Hws.
Qed.

Lemma directions_for_diagonals : directions_for false ⊆ directions_for true.
Proof.
  intros d Hd. simpl in *. unfold DIRECTIONS_8.
  repeat (apply elem_of_cons in Hd as [->|Hd];
          [repeat ((by left) || right)|]).
  by apply elem_of_nil in Hd.
Qed.

Lemma filter_submseteq {A} (P : A → Prop) `{∀ x, Decision (P x)} (l1 l2 : list A) :
  l1 ⊆+ l2 → filter P l1 ⊆+ filter P l2.
Proof.
  induction 1 as [|x l1 l2 _ IH|x y l|x l1 l2 _ IH|l1 l2 l3 _ IH1 _ IH2].
  - done.
  - rewrite !(filter_cons _ x). case_decide; [by apply submseteq_skip|done].
  - rewrite !filter_cons.
    repeat case_decide; (done || apply submseteq_swap).
  - rewrite (filter_cons _ x). case_decide; [by apply submseteq_cons|done].
  - by etrans.
Qed.

Section GenerateMore.
Context `{RandomSource} `{StrMethods}.

Lemma generate_raised_iff entropy words size allow_diagonals seed :
  generate_wordsearch entropy words size allow_diagonals seed
    = Raised ValueError ↔
  ¬ ∃ h, arrangement size (directions_for allow_diagonals) (clean words) h.
Proof.
  destruct (generate_wordsearch_spec entropy words size allow_diagonals seed)
    as [[Hraise Hnone]|(g & Hret & Harr & _)].
  - done.
  - split; [congruence|]. intros Hnone. destruct Hnone. by exists g.
Qed.

Lemma generate_returned_iff entropy words size allow_diagonals seed :
  (∃ g, generate_wordsearch entropy words size allow_diagonals seed
          = Returned g) ↔
  ∃ h, arrangement size (directions_for allow_diagonals) (clean words) h.
Proof.
  destruct (generate_wordsearch_spec entropy words size allow_diagonals seed)
    as [[Hraise Hnone]|(g & Hret & Harr & _)].
  - split; [intros [g Hg]; congruence|done].
  - split; [by exists g|by exists g].
Qed.

Lemma clean_subseteq words words' : words ⊆ words' → clean words ⊆ clean words'.
Proof.
  intros Hsub w (w0 & Hw0 & Hstrip & ->)%elem_of_clean.
  apply elem_of_clean. exists w0. split; [by apply Hsub|done].
Qed.

Lemma clean_blank words :
  Forall (λ w, strip w = EmptyString) words → clean words = [].
Proof.
  intros Hblank. unfold clean.
  replace (filter (λ w, strip w ≠ EmptyString) words) with (@nil string); [done|].
  symmetry. induction Hblank as [|w ws Hw _ IH]; [done|].
  by rewrite filter_cons_False by (by intros Hne).
Qed.

Lemma clean_length words :
  length (clean words) = length (filter (λ w, strip w ≠ EmptyString) words).
Proof.
  unfold clean. by rewrite sort_by_len_desc_perm, length_fmap.
Qed.

(** X12. When [generate_wordsearch] raises [ValueError] with diagonals
    allowed, it raises [ValueError] with diagonals disabled as well,
    whatever the seeds. *)
Theorem disabling_diagonals_never_helps
    entropy entropy' words size seed seed' :
  generate_wordsearch entropy words size true seed = Raised ValueError →
  generate_wordsearch entropy' words size false seed' = Raised ValueError.
Proof.
  rewrite !generate_raised_iff. intros Hnone [h Harr]. apply Hnone.
  exists h. revert Harr.
  apply arrangement_weaken; [apply directions_for_diagonals|done].
Qed.

(** X13. When [generate_wordsearch] returns a grid for a word list, it
    returns a grid for every list got from that list by removing words and
    reordering the rest, whatever the seeds; the list it then searches
    with is no longer, so the search nests no deeper. *)
Theorem fewer_words_still_fit
    entropy entropy' words words' size allow_diagonals seed seed' (g' : grid) :
  words ⊆+ words' →
  generate_wordsearch entropy' words' size allow_diagonals seed' = Returned g' →
  (length (clean words) ≤ length (clean words'))%nat ∧
  ∃ g, generate_wordsearch entropy words size allow_diagonals seed = Returned g.
Proof.
  intros Hsub Hret. split.
  - rewrite !clean_length. by apply submseteq_length, filter_submseteq.
  - apply generate_returned_iff.
    assert (Hsome : ∃ g, generate_wordsearch entropy' words' size allow_diagonals
                           seed' = Returned g) by by exists g'.
    apply generate_returned_iff in Hsome as [h Harr]. exists h. revert Harr.
    apply arrangement_weaken; [done|]. apply clean_subseteq.
    intros w Hw. by eapply elem_of_submseteq.
Qed.


(** X15. A word list of blank words only (the empty list among them)
    never raises: [generate_wordsearch] returns an N×N grid of letters
    [A]..[Z]. *)
Theorem generate_blank_words entropy words size allow_diagonals seed :
  Forall (λ w, strip w = EmptyString) words →
  ∃ g, generate_wordsearch entropy words size allow_diagonals seed = Returned g ∧
    square g ∧ len g = Z.max 0 size ∧
    ∀ r c, in_bounds (len g) r c = true →
      ∃ cell, grid_get g r c = Some cell ∧ uppercase_letter cell.
Proof.
  intros Hblank. pose proof (clean_blank words Hblank) as Hclean.
  destruct (generate_wordsearch_spec entropy words size allow_diagonals seed)
    as [[Hraise Hnone]|(g & Hret & (Hsq & Hlen & Hall) & Hcells)].
  - destruct Hnone. exists (make_empty_grid size).
    split; [apply square_make_empty_grid|].
    split; [apply len_make_empty_grid|]. rewrite Hclean. constructor.
  - exists g. split; [done|]. split; [done|]. split; [done|].
    intros r c Hin.
    destruct (Hcells (λ _, False)) with (r := r) (c := c)
      as (ch & Hch & [Hup|[]]); [by rewrite Hclean|done|].
    exists (str1 ch). split; [done|]. by exists ch.
Qed.

(** X16. Every cell of a grid returned by [generate_wordsearch] holds a
    single character: a letter [A]..[Z] or a character of one of the
    normalised words.  No cell is left [EMPTY]. *)
Theorem generate_cells_from_words
    entropy words size allow_diagonals seed (g : grid) :
  generate_wordsearch entropy words size allow_diagonals seed = Returned g →
  square g ∧ len g = Z.max 0 size ∧
  ∀ r c, in_bounds (len g) r c = true →
    ∃ ch, grid_get g r c = Some (str1 ch) ∧
      ((65 ≤ nat_of_ascii ch ≤ 90)%nat ∨
       ∃ w (i : nat), w ∈ clean words ∧ String.get i w = Some ch).
Proof.
  intros Hgen.
  destruct (generate_wordsearch_spec entropy words size allow_diagonals seed)
    as [[Hraise _]|(g' & Hret & (Hsq & Hlen & _) & Hcells)]; [congruence|].
  rewrite Hgen in Hret. injection Hret as <-.
  split; [done|]. split; [done|]. intros r c Hin.
  apply (Hcells (λ ch, ∃ w (i : nat), w ∈ clean words ∧ String.get i w = Some ch));
    [|done].
  apply Forall_forall. intros w Hw i ch Hget. by exists w, i.
Qed.

End GenerateMore.

(** X17. Whether [generate_wordsearch] raises [ValueError] does not depend
    on the random generator, the seed or the entropy: the search is
    exhaustive. *)
Theorem failure_independent_of_randomness
    (R1 R2 : RandomSource) `{StrMethods}
    (entropy1 : @rng_state R1) (entropy2 : @rng_state R2)
    words size allow_diagonals seed1 seed2 :
  @generate_wordsearch R1 _ entropy1 words size allow_diagonals seed1
    = Raised ValueError ↔
  @generate_wordsearch R2 _ entropy2 words size allow_diagonals seed2
    = Raised ValueError.
Proof. by rewrite !generate_raised_iff. Qed.

(** X20. When [generate_wordsearch] returns a grid for some size, it
    returns a grid for every larger size, whatever the seeds. *)
Theorem bigger_grid_still_fits `{RandomSource} `{StrMethods}
    entropy entropy' words size size' allow_diagonals seed seed' (g : grid) :
  size ≤ size' →
  generate_wordsearch entropy words size allow_diagonals seed = Returned g →
  ∃ g', generate_wordsearch entropy' words size' allow_diagonals seed'
          = Returned g'.
Proof.
  intros Hle Hret. apply generate_returned_iff.
  apply (arrangement_grow size size'); [done|].
  apply (generate_returned_iff entropy words size allow_diagonals seed).
  by exists g.
Qed.

Lemma bigger_grid_still_fits_witness :
  3 ≤ 5 ∧
  SampleRuntime.generate ["cat"; "dog"]%string 3 false 1
    = Returned [["C"; "G"; "D"]; ["A"; "O"; "E"]; ["T"; "D"; "F"]]%string ∧
  ∃ g', SampleRuntime.generate ["cat"; "dog"]%string 5 false 2 = Returned g'.
Proof.
  assert (Hle : 3 ≤ 5) by lia.
  assert (Hgen : SampleRuntime.generate ["cat"; "dog"]%string 3 false 1
    = Returned [["C"; "G"; "D"]; ["A"; "O"; "E"]; ["T"; "D"; "F"]]%string)
    by (vm_compute; reflexivity).
  split; [exact Hle|]. split; [exact Hgen|].
  exact (@bigger_grid_still_fits SampleRuntime.random SampleRuntime.str
           0%nat 0%nat _ 3 5 false (Some 1) (Some 2) _ Hle Hgen).
Defined.

Lemma disabling_diagonals_never_helps_witness :
  SampleRuntime.generate ["abc"]%string 2 true 0 = Raised ValueError ∧
  SampleRuntime.generate ["abc"]%string 2 false 7 = Raised ValueError.
Proof.
  assert (Hgen : SampleRuntime.generate ["abc"]%string 2 true 0
                 = Raised ValueError) by (vm_compute; reflexivity).
  split; [exact Hgen|].
  exact (@disabling_diagonals_never_helps SampleRuntime.random SampleRuntime.str
           0%nat 0%nat _ 2 (Some 0) (Some 7) Hgen).
Defined.

Lemma fewer_words_still_fit_witness :
  ["dog"]%string ⊆+ ["cat"; "dog"]%string ∧
  SampleRuntime.generate ["cat"; "dog"]%string 3 false 1
    = Returned [["C"; "G"; "D"]; ["A"; "O"; "E"]; ["T"; "D"; "F"]]%string ∧
  (length (@clean SampleRuntime.str ["dog"]%string)
     ≤ length (@clean SampleRuntime.str ["cat"; "dog"]%string))%nat ∧
  ∃ g, SampleRuntime.generate ["dog"]%string 3 false 4 = Returned g.
Proof.
  assert (Hsub : ["dog"]%string ⊆+ ["cat"; "dog"]%string)
    by (apply submseteq_cons; reflexivity).
  assert (Hgen : SampleRuntime.generate ["cat"; "dog"]%string 3 false 1
    = Returned [["C"; "G"; "D"]; ["A"; "O"; "E"]; ["T"; "D"; "F"]]%string)
    by (vm_compute; reflexivity).
  split; [exact Hsub|]. split; [exact Hgen|].
  exact (@fewer_words_still_fit SampleRuntime.random SampleRuntime.str
           0%nat 0%nat _ _ 3 false (Some 4) (Some 1) _ Hsub Hgen).
Defined.


Lemma generate_blank_words_witness :
  Forall (λ w, @strip SampleRuntime.str w = EmptyString) ["  "%string; EmptyString] ∧
  ∃ g, SampleRuntime.generate ["  "%string; EmptyString] 2 true 0 = Returned g ∧
    square g ∧ len g = Z.max 0 2 ∧
    ∀ r c, in_bounds (len g) r c = true →
      ∃ cell, grid_get g r c = Some cell ∧ uppercase_letter cell.
Proof.
  assert (Hblank : Forall (λ w, @strip SampleRuntime.str w = EmptyString)
                          ["  "%string; EmptyString]) by (repeat constructor).
  split; [exact Hblank|].
  exact (@generate_blank_words SampleRuntime.random SampleRuntime.str
           0%nat _ 2 true (Some 0) Hblank).
Defined.

Lemma generate_cells_from_words_witness :
  SampleRuntime.generate ["c4t"]%string 3 false 1
    = Returned [["C"; "C"; "D"]; ["4"; "E"; "F"]; ["T"; "G"; "H"]]%string ∧
  square [["C"; "C"; "D"]; ["4"; "E"; "F"]; ["T"; "G"; "H"]]%string ∧
  len [["C"; "C"; "D"]; ["4"; "E"; "F"]; ["T"; "G"; "H"]]%string = Z.max 0 3 ∧
  ∀ r c,
    in_bounds (len [["C"; "C"; "D"]; ["4"; "E"; "F"]; ["T"; "G"; "H"]]%string)
      r c = true →
    ∃ ch,
      grid_get [["C"; "C"; "D"]; ["4"; "E"; "F"]; ["T"; "G"; "H"]]%string r c
        = Some (str1 ch) ∧
      ((65 ≤ nat_of_ascii ch ≤ 90)%nat ∨
       ∃ w (i : nat), w ∈ @clean SampleRuntime.str ["c4t"]%string ∧
                      String.get i w = Some ch).
Proof.
  assert (Hgen : SampleRuntime.generate ["c4t"]%string 3 false 1
    = Returned [["C"; "C"; "D"]; ["4"; "E"; "F"]; ["T"; "G"; "H"]]%string)
    by (vm_compute; reflexivity).
  split; [exact Hgen|].
  exact (@generate_cells_from_words SampleRuntime.random SampleRuntime.str
           0%nat _ _ _ _ _ Hgen).
Defined.
